(** * trojan-plus, [src/core/utils.h]: relay helpers

    A shallow embedding of the header's constants, of the two data caches
    ([SendDataCache], [ReadDataCache]) and of the completion handlers of
    [connect_out_socket] and [shutdown_ssl_socket], followed by the
    properties established about them.

    Conventions.
    - [std::string] is [string]; [s.empty()] is [empty s]; [a + b] and
      [a += b] are [String.append].
    - A [std::function] that the code stores and calls later is data: a
      name (so that calls can be observed) and the list of calls it makes
      back into the object it was handed to.
    - Calls that leave the class (the async writer, a handler) are recorded,
      in the order they happen, in a trace kept next to the object. *)

From Stdlib Require Import List String Bool Arith ZArith Lia.
Import ListNotations.

Set Implicit Arguments.

(** ** [boost::system::error_code] *)

Inductive error_code : Type :=
| success
| operation_aborted
| failure (code : nat).

(** [if (ec)], [if (error)] *)
Definition is_error (ec : error_code) : bool :=
  match ec with success => false | _ => true end.

(** [error == boost::asio::error::operation_aborted] *)
Definition is_aborted (ec : error_code) : bool :=
  match ec with operation_aborted => true | _ => false end.

(** [std::string::empty] *)
Definition empty (s : string) : bool :=
  match s with EmptyString => true | String _ _ => false end.

(** ** Preprocessor constants (lines 34-95) *)

Module Macros.

(** [#ifndef X / #define X lit / #endif]: the platform's value when its
    headers define [X], the literal otherwise. *)
Definition ifndef (platform : option Z) (literal : Z) : Z :=
  match platform with Some v => v | None => literal end.

(** What the included system headers define; [None] is "not defined". *)
Record Platform : Type := {
  def_SO_ORIGINAL_DST : option Z;
  def_IP6T_SO_ORIGINAL_DST : option Z;
  def_IP_RECVTTL : option Z;
  def_IPV6_RECVHOPLIMIT : option Z;
  def_IPV6_HOPLIMIT : option Z;
  def_IP_TTL : option Z;
  def_IP_TRANSPARENT : option Z;
  def_IP_RECVORIGDSTADDR : option Z;
  def_IP_ORIGDSTADDR : option Z;
  def_IPV6_RECVORIGDSTADDR : option Z;
  def_IPV6_ORIGDSTADDR : option Z
}.

(** A platform whose headers define none of the names. *)
Definition bare : Platform :=
  {| def_SO_ORIGINAL_DST := None; def_IP6T_SO_ORIGINAL_DST := None;
     def_IP_RECVTTL := None; def_IPV6_RECVHOPLIMIT := None;
     def_IPV6_HOPLIMIT := None; def_IP_TTL := None;
     def_IP_TRANSPARENT := None; def_IP_RECVORIGDSTADDR := None;
     def_IP_ORIGDSTADDR := None; def_IPV6_RECVORIGDSTADDR := None;
     def_IPV6_ORIGDSTADDR := None |}.

Definition SO_ORIGINAL_DST (p : Platform) : Z := ifndef (def_SO_ORIGINAL_DST p) 80.
Definition IP6T_SO_ORIGINAL_DST (p : Platform) : Z := ifndef (def_IP6T_SO_ORIGINAL_DST p) 80.
Definition IP_RECVTTL (p : Platform) : Z := ifndef (def_IP_RECVTTL p) 12.
Definition IPV6_RECVHOPLIMIT (p : Platform) : Z := ifndef (def_IPV6_RECVHOPLIMIT p) 51.
Definition IPV6_HOPLIMIT (p : Platform) : Z := ifndef (def_IPV6_HOPLIMIT p) 21.
Definition IP_TTL (p : Platform) : Z := ifndef (def_IP_TTL p) 4.
Definition IP_TRANSPARENT (p : Platform) : Z := ifndef (def_IP_TRANSPARENT p) 19.

(** [#ifndef IP_RECVORIGDSTADDR / #ifdef IP_ORIGDSTADDR ... #else 20] *)
Definition IP_RECVORIGDSTADDR (p : Platform) : Z :=
  ifndef (def_IP_RECVORIGDSTADDR p) (ifndef (def_IP_ORIGDSTADDR p) 20).

Definition IPV6_RECVORIGDSTADDR (p : Platform) : Z :=
  ifndef (def_IPV6_RECVORIGDSTADDR p) (ifndef (def_IPV6_ORIGDSTADDR p) 74).

(** [#define PACKET_HEADER_SIZE (1 + 28 + 2 + 64)] *)
Definition PACKET_HEADER_SIZE : Z := (1 + 28 + 2 + 64)%Z.

(** [#define DEFAULT_PACKET_SIZE 1397] *)
Definition DEFAULT_PACKET_SIZE : Z := 1397%Z.

End Macros.

(** ** [class SendDataCache] (lines 97-162) *)

Module SendDataCache.

(** [ConnectionFunc]: a [bool()] closure.  What it can look at is the
    state of the transport it was built around, here whether the link is
    up; the constructor's default ignores it. *)
Definition ConnectionFunc : Type := bool -> bool.

(** [SentHandler]: a closure called with the error code of the write.  It
    is known by a [name], and its [body] lists the calls it makes on the
    cache it was registered with (the cache's public members), in order. *)
Inductive SentHandler : Type :=
| Handler (name : nat) (body : list Action)
with Action : Type :=
| PushData (data : string) (handler : SentHandler)
| InsertData (data : string)
| AsyncSend
| SetIsConnectedFunc (func : ConnectionFunc)
| SetLink (up : bool).

Definition name (h : SentHandler) : nat :=
  match h with Handler n _ => n end.

Definition body (h : SentHandler) : list Action :=
  match h with Handler _ b => b end.

(** The data members.  [async_writer] is not a field: see [async_writer]
    below. *)
Record Cache : Type := {
  handler_queue : list SentHandler;
  data_queue : string;
  sending_data_buff : string;
  sending_data_handler : list SentHandler;
  is_async_sending : bool;
  is_connected : ConnectionFunc
}.

(** What leaves the class, in the order it happens. *)
Inductive Obs : Type :=
| Registered (name : nat)               (* push_data stored a handler *)
| Write (data : string)                 (* async_writer(data, ...) called *)
| Done (ec : error_code)                (* the lambda handed to the writer is entered *)
| Fired (name : nat) (ec : error_code). (* sending_data_handler[i](ec) *)

(** The cache in its surroundings: the transport's link, the number of
    writes handed to the writer whose completion has not been delivered
    yet, and the trace. *)
Record World : Type := {
  cache : Cache;
  link_up : bool;
  outstanding : nat;
  trace : list Obs
}.

(** [SendDataCache()] *)
Definition new_cache : Cache :=
  {| handler_queue := []; data_queue := EmptyString;
     sending_data_buff := EmptyString; sending_data_handler := [];
     is_async_sending := false; is_connected := fun _ => true |}.

Definition init (up : bool) : World :=
  {| cache := new_cache; link_up := up; outstanding := 0; trace := [] |}.

Definition with_cache (c : Cache) (w : World) : World :=
  {| cache := c; link_up := link_up w; outstanding := outstanding w;
     trace := trace w |}.

Definition observe (o : Obs) (w : World) : World :=
  {| cache := cache w; link_up := link_up w; outstanding := outstanding w;
     trace := trace w ++ [o] |}.

(** [async_writer(data, handler)]: an asynchronous initiating function.
    It returns at once; its handler (always the lambda of [async_send],
    [on_sent] below) is called later, from the event loop, once. *)
Definition async_writer (data : string) (w : World) : World :=
  {| cache := cache w; link_up := link_up w;
     outstanding := S (outstanding w);
     trace := trace w ++ [Write data] |}.

(** [set_is_connected_func] *)
Definition set_is_connected_func (func : ConnectionFunc) (w : World) : World :=
  let c := cache w in
  with_cache
    {| handler_queue := handler_queue c; data_queue := data_queue c;
       sending_data_buff := sending_data_buff c;
       sending_data_handler := sending_data_handler c;
       is_async_sending := is_async_sending c; is_connected := func |} w.

(** The transport goes up or down. *)
Definition set_link (up : bool) (w : World) : World :=
  {| cache := cache w; link_up := up; outstanding := outstanding w;
     trace := trace w |}.

(** [async_send], up to and including the call of the writer. *)
Definition async_send (w : World) : World :=
  let c := cache w in
  if empty (data_queue c) || negb (is_connected c (link_up w))
     || is_async_sending c
  then w
  else
    (* is_async_sending = true;
       sending_data_buff = data_queue;  data_queue.clear();
       std::move(handler_queue..., back_inserter(sending_data_handler));
       handler_queue.clear(); *)
    let c' :=
      {| handler_queue := [];
         data_queue := EmptyString;
         sending_data_buff := data_queue c;
         sending_data_handler := sending_data_handler c ++ handler_queue c;
         is_async_sending := true;
         is_connected := is_connected c |} in
    async_writer (sending_data_buff c') (with_cache c' w).

(** [insert_data] *)
Definition insert_data (data : string) (w : World) : World :=
  let c := cache w in
  async_send
    (with_cache
       {| handler_queue := handler_queue c;
          data_queue := String.append data (data_queue c);
          sending_data_buff := sending_data_buff c;
          sending_data_handler := sending_data_handler c;
          is_async_sending := is_async_sending c;
          is_connected := is_connected c |} w).

(** [push_data] *)
Definition push_data (data : string) (handler : SentHandler) (w : World) : World :=
  let c := cache w in
  async_send
    (observe (Registered (name handler))
       (with_cache
          {| handler_queue := handler_queue c ++ [handler];
             data_queue := String.append (data_queue c) data;
             sending_data_buff := sending_data_buff c;
             sending_data_handler := sending_data_handler c;
             is_async_sending := is_async_sending c;
             is_connected := is_connected c |} w)).

(** One call made by a handler's body. *)
Definition exec (a : Action) (w : World) : World :=
  match a with
  | PushData data handler => push_data data handler w
  | InsertData data => insert_data data w
  | AsyncSend => async_send w
  | SetIsConnectedFunc func => set_is_connected_func func w
  | SetLink up => set_link up w
  end.

Definition exec_all (l : list Action) (w : World) : World :=
  fold_left (fun w a => exec a w) l w.

(** [sending_data_handler[i](ec)].  The handler is run as a value.  The
    source runs the element of the vector in place: a handler that goes on
    after a push of its own has made [async_send] append to the vector
    runs from storage the vector may have released, and what the program
    does then is not defined.  The properties of runs below are stated for
    handlers that make no call; runs with a handler that pushes are
    evaluated only up to the end of such a push. *)
Definition call (h : SentHandler) (ec : error_code) (w : World) : World :=
  exec_all (body h) (observe (Fired (name h) ec) w).

(** [for (size_t i = 0; i < sending_data_handler.size(); i++)
       sending_data_handler[i](ec);]
    The bound is read again at every turn and the vector is indexed in
    place, as in the source.  [fuel] bounds the number of turns. *)
Fixpoint fire_from (fuel i : nat) (ec : error_code) (w : World) : option World :=
  match nth_error (sending_data_handler (cache w)) i with
  | None => Some w                       (* i >= size() *)
  | Some h =>
      match fuel with
      | O => None
      | S fuel' => fire_from fuel' (S i) ec (call h ec w)
      end
  end.

Definition clear_flag (w : World) : World :=
  let c := cache w in
  with_cache
    {| handler_queue := handler_queue c; data_queue := data_queue c;
       sending_data_buff := sending_data_buff c;
       sending_data_handler := sending_data_handler c;
       is_async_sending := false; is_connected := is_connected c |} w.

Definition clear_sending (w : World) : World :=
  let c := cache w in
  with_cache
    {| handler_queue := handler_queue c; data_queue := data_queue c;
       sending_data_buff := sending_data_buff c;
       sending_data_handler := [];
       is_async_sending := is_async_sending c;
       is_connected := is_connected c |} w.

(** The lambda handed to the writer (lines 150-160). *)
Definition on_sent_fuel (fuel : nat) (ec : error_code) (w : World) : option World :=
  let w1 := clear_flag w in
  if is_error ec then Some w1
  else
    match fire_from fuel 0 ec w1 with
    | Some w2 => Some (async_send (clear_sending w2))
    | None => None
    end.

(** Handlers are finite: the number of calls a handler can cause. *)
Fixpoint weight (h : SentHandler) : nat :=
  match h with
  | Handler _ b =>
      S ((fix sum (l : list Action) : nat :=
            match l with
            | [] => 0
            | a :: l' => action_weight a + sum l'
            end) b)
  end
with action_weight (a : Action) : nat :=
  match a with
  | PushData _ h => weight h
  | _ => 0
  end.

Definition weights (l : list SentHandler) : nat :=
  list_sum (map weight l).

(** Enough turns for every handler the cache holds. *)
Definition enough (w : World) : nat :=
  weights (sending_data_handler (cache w)) + weights (handler_queue (cache w)).

Definition on_sent (ec : error_code) (w : World) : option World :=
  on_sent_fuel (enough w) ec w.

(** The event loop delivers the completion of the outstanding write. *)
Definition complete (ec : error_code) (w : World) : option World :=
  match outstanding w with
  | O => Some w                              (* nothing to deliver *)
  | S n =>
      on_sent ec
        {| cache := cache w; link_up := link_up w; outstanding := n;
           trace := trace w ++ [Done ec] |}
  end.

(** What the owner of the cache and the event loop can do to it. *)
Inductive Event : Type :=
| Call (a : Action)
| Complete (ec : error_code).

Definition step (e : Event) (w : World) : option World :=
  match e with
  | Call a => Some (exec a w)
  | Complete ec => complete ec w
  end.

Fixpoint run (es : list Event) (w : World) : option World :=
  match es with
  | [] => Some w
  | e :: es' =>
      match step e w with
      | Some w' => run es' w'
      | None => None
      end
  end.

(** Readings of a trace. *)
Definition writes (t : list Obs) : list string :=
  flat_map (fun o => match o with Write d => [d] | _ => [] end) t.

Definition dones (t : list Obs) : list error_code :=
  flat_map (fun o => match o with Done ec => [ec] | _ => [] end) t.

Definition registered (t : list Obs) : list nat :=
  flat_map (fun o => match o with Registered n => [n] | _ => [] end) t.

Definition fired (t : list Obs) : list nat :=
  flat_map (fun o => match o with Fired n _ => [n] | _ => [] end) t.

(** Writes handed to the writer and not completed, at the end of [t]. *)
Definition in_flight (t : list Obs) : nat :=
  List.length (writes t) - List.length (dones t).

(** The bytes handed to the writer so far, followed by those still
    queued: the byte stream as the transport will see it. *)
Definition stream (w : World) : string :=
  String.append (String.concat EmptyString (writes (trace w)))
                (data_queue (cache w)).

Definition names (l : list SentHandler) : list nat := map name l.

(** The guard of [async_send]. *)
Definition blocked (w : World) : bool :=
  empty (data_queue (cache w))
  || negb (is_connected (cache w) (link_up w))
  || is_async_sending (cache w).

(** At most one write is in flight at the end of [t], and no completion
    came without a write. *)
Definition single (t : list Obs) : Prop :=
  List.length (dones t) <= List.length (writes t) <= S (List.length (dones t)).

(** ... and so it was at every moment of [t]. *)
Definition always_single (t : list Obs) : Prop :=
  forall p q, t = p ++ q -> single p.

(** A handler that makes no call on the cache. *)
Definition plain (h : SentHandler) : Prop := body h = [].

Definition fires (ec : error_code) (l : list SentHandler) : list Obs :=
  map (fun h => Fired (name h) ec) l.

(** An observation that is neither a write nor a completion. *)
Definition quiet (o : Obs) : Prop :=
  match o with Write _ | Done _ => False | _ => True end.

(** What the flag, the transport and the trace agree on. *)
Definition flight_inv (w : World) : Prop :=
  always_single (trace w)
  /\ List.length (writes (trace w))
     = List.length (dones (trace w)) + outstanding w
  /\ outstanding w = (if is_async_sending (cache w) then 1 else 0).

(** The handlers registered so far are those fired, then those in flight
    from index [i] on, then those queued, in this order. *)
Definition order_inv (i : nat) (w : World) : Prop :=
  i <= List.length (sending_data_handler (cache w))
  /\ registered (trace w)
     = fired (trace w)
       ++ names (skipn i (sending_data_handler (cache w)))
       ++ names (handler_queue (cache w)).
(** [w'] has the in-flight handlers of [w], maybe followed by more, and
    holds [k] more weight. *)
Definition grows (k : nat) (w w' : World) : Prop :=
  (exists ext, sending_data_handler (cache w')
               = sending_data_handler (cache w) ++ ext)
  /\ enough w' = enough w + k.


(** Several [push_data] calls in a row. *)
Definition push_all (ps : list (string * SentHandler)) (w : World) : World :=
  fold_left (fun w p => push_data (fst p) (snd p) w) ps w.

(** The bytes of the pushes, in order. *)
Definition bytes_of (ps : list (string * SentHandler)) : string :=
  fold_left (fun s p => String.append s (fst p)) ps EmptyString.

(** The bytes pushed by the calls of a run made from outside. *)
Definition pushed_bytes (es : list Event) : string :=
  fold_left
    (fun s e => match e with
                | Call (PushData d _) => String.append s d
                | _ => s
                end) es EmptyString.

(** A run that inserts nothing and whose handlers make no call. *)
Definition plain_push (e : Event) : Prop :=
  match e with
  | Call (PushData _ h) => plain h
  | Call (InsertData _) => False
  | _ => True
  end.

(** A run in which no write fails and nobody touches the link or the
    connection function from outside. *)
Definition draining (e : Event) : Prop :=
  match e with
  | Call (PushData _ _) | Call (InsertData _) | Call AsyncSend => True
  | Complete success => True
  | _ => False
  end.

(** A run whose handlers make no call on the cache. *)
Definition calls_plain (e : Event) : Prop :=
  match e with
  | Call (PushData _ h) => plain h
  | _ => True
  end.

(** Every handler the cache holds makes no call. *)
Definition all_plain (w : World) : Prop :=
  Forall plain (sending_data_handler (cache w))
  /\ Forall plain (handler_queue (cache w)).

(** Reading a trace as a ledger of handlers: registered and not yet
    handed to the writer with their bytes ([unsent]), handed over in the
    write that is in flight ([flying]), and in a write that has completed
    with success, hence due ([due]). *)
Record Ledger : Type := {
  unsent : list nat;
  flying : list nat;
  due : list nat
}.

(** A write carries everything queued; a completion settles the write in
    flight; a handler may fire only when it is the first one due. *)
Definition book (l : option Ledger) (o : Obs) : option Ledger :=
  match l with
  | None => None
  | Some l =>
      match o with
      | Registered n =>
          Some {| unsent := unsent l ++ [n]; flying := flying l; due := due l |}
      | Write _ =>
          Some {| unsent := []; flying := flying l ++ unsent l; due := due l |}
      | Done ec =>
          if is_error ec
          then Some {| unsent := unsent l; flying := []; due := due l |}
          else Some {| unsent := unsent l; flying := [];
                       due := due l ++ flying l |}
      | Fired n _ =>
          match due l with
          | m :: rest =>
              if Nat.eqb n m
              then Some {| unsent := unsent l; flying := flying l; due := rest |}
              else None
          | [] => None
          end
      end
  end.

Definition ledger (t : list Obs) : option Ledger :=
  fold_left book t (Some {| unsent := []; flying := []; due := [] |}).

(** Every handler fired in [t] was, when it fired, the first of those
    whose write had completed with success. *)
Definition timely (t : list Obs) : bool :=
  match ledger t with Some _ => true | None => false end.

(** A run whose handlers make no call and whose writes all succeed. *)
Definition tame (e : Event) : Prop :=
  match e with
  | Call (PushData _ h) => plain h
  | Call _ => True
  | Complete ec => ec = success
  end.

(** The ledger of the trace is the state of the cache. *)
Definition booked (w : World) : Prop :=
  ledger (trace w)
  = Some {| unsent := names (handler_queue (cache w));
            flying := names (sending_data_handler (cache w));
            due := [] |}.

End SendDataCache.

(** ** [class ReadDataCache] (lines 164-188) *)

Module ReadDataCache.

(** [ReadHandler]: a closure called with the data.  As for [SentHandler],
    a [name] and the calls its [body] makes on the cache.  A handler is a
    finite term: a consumer that re-arms itself for ever is not one, and
    the contract below is stated for handlers that make no call. *)
Inductive ReadHandler : Type :=
| Handler (name : nat) (body : list Action)
with Action : Type :=
| PushData (data : string)
| AsyncRead (handler : ReadHandler).

Definition name (h : ReadHandler) : nat :=
  match h with Handler n _ => n end.

Definition body (h : ReadHandler) : list Action :=
  match h with Handler _ b => b end.

(** The data members; a default-constructed [std::function] is [None]. *)
Record Cache : Type := {
  data_queue : string;
  read_handler : option ReadHandler;
  is_waiting : bool
}.

(** [name] was called with [data]. *)
Inductive Obs : Type :=
| Delivered (name : nat) (data : string).

Record World : Type := {
  cache : Cache;
  trace : list Obs
}.

(** [ReadDataCache()] *)
Definition init : World :=
  {| cache := {| data_queue := EmptyString; read_handler := None;
                 is_waiting := false |};
     trace := [] |}.

(** A call that does not return normally ([None]): the handler ran out of
    [fuel], or an empty [std::function] was called. *)
Definition Caller : Type := ReadHandler -> string -> World -> option World.

(** [push_data], given how a handler is called.  The waiting handler is
    run as a value; the source runs the member [read_handler] in place,
    which an [async_read] made by the handler itself overwrites. *)
Definition push_data_with (call : Caller) (data : string) (w : World) : option World :=
  let c := cache w in
  if is_waiting c then
    let w' := {| cache := {| data_queue := data_queue c;
                             read_handler := read_handler c;
                             is_waiting := false |};
                 trace := trace w |} in
    match read_handler c with
    | Some h => call h data w'
    | None => None
    end
  else
    Some {| cache := {| data_queue := String.append (data_queue c) data;
                        read_handler := read_handler c;
                        is_waiting := is_waiting c |};
            trace := trace w |}.

Definition clear_data_queue (w : World) : World :=
  {| cache := {| data_queue := EmptyString;
                 read_handler := read_handler (cache w);
                 is_waiting := is_waiting (cache w) |};
     trace := trace w |}.

(** [async_read], given how a handler is called. *)
Definition async_read_with (call : Caller) (handler : ReadHandler) (w : World) : option World :=
  let c := cache w in
  if empty (data_queue c) then
    Some {| cache := {| data_queue := data_queue c;
                        read_handler := Some handler;
                        is_waiting := true |};
            trace := trace w |}
  else
    match call handler (data_queue c) w with
    | Some w' => Some (clear_data_queue w')
    | None => None
    end.

Definition exec_with (call : Caller) (a : Action) (w : World) : option World :=
  match a with
  | PushData data => push_data_with call data w
  | AsyncRead handler => async_read_with call handler w
  end.

Fixpoint exec_all_with (call : Caller) (l : list Action) (w : World) : option World :=
  match l with
  | [] => Some w
  | a :: l' =>
      match exec_with call a w with
      | Some w' => exec_all_with call l' w'
      | None => None
      end
  end.

(** Calling a handler: it is recorded, then its body runs; the calls the
    body makes may call handlers in turn, [fuel] bounds the nesting. *)
Fixpoint call_fuel (fuel : nat) (h : ReadHandler) (data : string) (w : World) : option World :=
  match fuel with
  | O => None
  | S fuel' =>
      exec_all_with (call_fuel fuel') (body h)
        {| cache := cache w; trace := trace w ++ [Delivered (name h) data] |}
  end.

Fixpoint weight (h : ReadHandler) : nat :=
  match h with
  | Handler _ b =>
      S ((fix sum (l : list Action) : nat :=
            match l with
            | [] => 0
            | a :: l' => action_weight a + sum l'
            end) b)
  end
with action_weight (a : Action) : nat :=
  match a with
  | AsyncRead h => weight h
  | PushData _ => 0
  end.

(** The handler that a push would call. *)
Definition waiting_weight (w : World) : nat :=
  if is_waiting (cache w) then
    match read_handler (cache w) with Some h => weight h | None => 0 end
  else 0.

Definition push_data (data : string) (w : World) : option World :=
  push_data_with (call_fuel (waiting_weight w)) data w.

Definition async_read (handler : ReadHandler) (w : World) : option World :=
  async_read_with (call_fuel (weight handler + waiting_weight w)) handler w.

Definition exec (a : Action) (w : World) : option World :=
  match a with
  | PushData data => push_data data w
  | AsyncRead handler => async_read handler w
  end.

Fixpoint run (l : list Action) (w : World) : option World :=
  match l with
  | [] => Some w
  | a :: l' =>
      match exec a w with
      | Some w' => run l' w'
      | None => None
      end
  end.

(** Bytes are buffered and a consumer is waiting, both at once. *)
Definition both (w : World) : bool :=
  negb (empty (data_queue (cache w))) && is_waiting (cache w).

(** Never both, and a consumer that waits has left its handler. *)
Definition inv (w : World) : Prop :=
  both w = false
  /\ (is_waiting (cache w) = true -> read_handler (cache w) <> None).

Definition total_weight (l : list Action) : nat :=
  list_sum (map action_weight l).

(** A handler that makes no call on the cache. *)
Definition plain (h : ReadHandler) : Prop := body h = [].

Definition plain_action (a : Action) : Prop :=
  match a with
  | PushData _ => True
  | AsyncRead h => plain h
  end.

(** The bytes handed to handlers, in order. *)
Definition delivered (t : list Obs) : string :=
  fold_left (fun s o => match o with Delivered _ d => String.append s d end)
    t EmptyString.

(** The bytes pushed by a list of calls, in order. *)
Definition pushed (l : list Action) : string :=
  fold_left (fun s a => match a with
                        | PushData d => String.append s d
                        | AsyncRead _ => s
                        end) l EmptyString.

(** The handler a push would call makes no call. *)
Definition waiter_plain (w : World) : Prop :=
  is_waiting (cache w) = true ->
  exists n, read_handler (cache w) = Some (Handler n []).

End ReadDataCache.

(** ** Boost.Asio operations, as far as the two functions below rely on them

    An asynchronous operation ([async_wait] on a [steady_timer],
    [async_connect], [ssl::stream::async_shutdown]) is started by the code,
    finishes at some moment outside the code's control, and has its handler
    called by the event loop at a later moment.  Between the two the handler
    sits in the loop's queue with its error code fixed.  [cancel()] makes an
    operation that has not finished yet finish with [operation_aborted]; on
    one whose handler is already queued it has no effect (Boost.Asio,
    [basic_waitable_timer::cancel]: such handlers "can no longer be
    cancelled, and therefore are passed an error code that indicates the
    successful completion of the wait operation"). *)

Inductive Op : Type :=
| Idle                       (* none started, or its handler has run *)
| Pending                    (* started, not finished *)
| Queued (ec : error_code).  (* finished with [ec]; handler not yet called *)

Definition cancel (o : Op) : Op :=
  match o with
  | Pending => Queued operation_aborted
  | _ => o
  end.

(** The operation finishes by itself with [ec]. *)
Definition finish (ec : error_code) (o : Op) : Op :=
  match o with
  | Pending => Queued ec
  | _ => o
  end.

Local Notation "a +++ b" := (String.append a b) (right associativity, at level 60).

(** ** [connect_out_socket] (lines 190-248) *)

Module Connector.

(** [Log::Level], the two levels used here. *)
Inductive Level : Type := ALL | ERROR.

(** One entry of [resolver::results_type]: [endpoint().address().to_string()]
    and [endpoint().protocol()]. *)
Record Entry : Type := {
  address : string;
  protocol_v6 : bool
}.

(** [this_ptr->config.tcp] *)
Record TcpConfig : Type := {
  no_delay : bool;
  keep_alive : bool;
  fast_open : bool;
  connect_time_out : Z
}.

(** What the socket answers: the code of [open], and the codes behind the
    two [set_option] overloads that throw. *)
Record Answers : Type := {
  open_ec : error_code;
  no_delay_ec : error_code;
  keep_alive_ec : error_code
}.

Inductive Effect : Type :=
| Log (endpoint : string) (msg : string) (level : Level)
| Destroy                              (* this_ptr->destroy() *)
| Open (v6 : bool)                     (* out_socket.open(protocol, ec) *)
| SetNoDelay
| SetKeepAlive
| SetFastOpenConnect
| Throw (ec : error_code)              (* boost::system::system_error *)
| ExpiresAfter (seconds : Z)
| AsyncWait
| TimerCancel
| AsyncConnect (to : Entry)
| ConnectedHandler.                    (* connected_handler() *)

(** One call of [connect_out_socket]: its three asynchronous operations
    and what it has done so far.  [timeout_timer] is the [shared_ptr]:
    [None] is [nullptr]. *)
Record Attempt : Type := {
  resolve : Op;
  timeout_timer : option Op;
  connect : Op;
  effects : list Effect
}.

(** A handler returns, or an exception leaves it. *)
Inductive Outcome : Type :=
| Normal (a : Attempt)
| Thrown (a : Attempt).

Section WithArguments.

(** [error.message()] *)
Variable message : error_code -> string.
(** [#ifdef TCP_FASTOPEN_CONNECT] *)
Variable TCP_FASTOPEN_CONNECT : bool.
Variables addr port in_endpoint : string.
Variable config : TcpConfig.
Variable socket : Answers.

Definition emit (e : Effect) (a : Attempt) : Attempt :=
  {| resolve := resolve a; timeout_timer := timeout_timer a;
     connect := connect a; effects := effects a ++ [e] |}.

Definition emit_all (l : list Effect) (a : Attempt) : Attempt :=
  fold_left (fun a e => emit e a) l a.

(** The body of the function: [resolver.async_resolve(...)]. *)
Definition connect_out_socket : Attempt :=
  {| resolve := Pending; timeout_timer := None; connect := Idle;
     effects := [] |}.

(** [timeout_timer->async_wait] handler (lines 226-231). *)
Definition timeout_handler (error : error_code) (a : Attempt) : Attempt :=
  if negb (is_error error) then
    emit Destroy
      (emit (Log in_endpoint
               ("cannot establish connection to remote server " +++ addr
                  +++ ":" +++ port +++ " reason: timeout") ERROR) a)
  else a.

(** [out_socket.async_connect] handler (lines 234-246). *)
Definition connect_handler (error : error_code) (a : Attempt) : Attempt :=
  let a1 :=
    match timeout_timer a with
    | Some t =>
        emit TimerCancel
          {| resolve := resolve a; timeout_timer := Some (cancel t);
             connect := connect a; effects := effects a |}
    | None => a
    end in
  if is_error error then
    emit Destroy
      (emit (Log in_endpoint
               ("cannot establish connection to remote server " +++ addr
                  +++ ":" +++ port +++ " reason: " +++ message error) ERROR) a1)
  else emit ConnectedHandler a1.

(** Lines 220-246: the timer, then the connect. *)
Definition start_connect (iterator : Entry) (a : Attempt) : Attempt :=
  let a1 :=
    if (0 <? connect_time_out config)%Z then
      let a' := emit_all [ExpiresAfter (connect_time_out config); AsyncWait] a in
      {| resolve := resolve a'; timeout_timer := Some Pending;
         connect := connect a'; effects := effects a' |}
    else a in
  let a2 := emit (AsyncConnect iterator) a1 in
  {| resolve := resolve a2; timeout_timer := timeout_timer a2;
     connect := Pending; effects := effects a2 |}.

(** [out_socket.set_option(opt)], the overload that throws. *)
Definition set_option (opt : Effect) (ec : error_code) (a : Attempt) : Outcome :=
  if is_error ec then Thrown (emit (Throw ec) (emit opt a))
  else Normal (emit opt a).

(** Lines 207-219: the socket options. *)
Definition set_options (a : Attempt) : Outcome :=
  match (if no_delay config
         then set_option SetNoDelay (no_delay_ec socket) a
         else Normal a) with
  | Thrown a' => Thrown a'
  | Normal a1 =>
      match (if keep_alive config
             then set_option SetKeepAlive (keep_alive_ec socket) a1
             else Normal a1) with
      | Thrown a' => Thrown a'
      | Normal a2 =>
          (* the overload taking [ec]: a failure is ignored *)
          Normal (if TCP_FASTOPEN_CONNECT && fast_open config
                  then emit SetFastOpenConnect a2 else a2)
      end
  end.

(** [async_resolve] handler (lines 193-247). *)
Definition resolve_handler (error : error_code) (results : list Entry)
           (a : Attempt) : Attempt :=
  if is_error error || match results with [] => true | _ => false end then
    emit Destroy
      (emit (Log in_endpoint
               ("cannot resolve remote server hostname " +++ addr +++ ":"
                  +++ port +++ " reason: " +++ message error) ERROR) a)
  else
    match results with
    | [] => a
    | iterator :: _ =>              (* auto iterator = results.begin(); *)
        let a1 :=
          emit (Open (protocol_v6 iterator))
            (emit (Log in_endpoint
                     (addr +++ " is resolved to " +++ address iterator) ALL) a) in
        if is_error (open_ec socket) then emit Destroy a1
        else
          match set_options a1 with
          | Thrown a' => a'         (* the exception leaves the handler *)
          | Normal a2 => start_connect iterator a2
          end
    end.

(** What happens to an attempt. *)
Inductive Event : Type :=
| Resolved (error : error_code) (results : list Entry)
| TimerExpires
| TimerHandlerRuns
| ConnectFinishes (ec : error_code)
| ConnectHandlerRuns.

Definition step (e : Event) (a : Attempt) : Attempt :=
  match e with
  | Resolved error results =>
      match resolve a with
      | Pending =>
          resolve_handler error results
            {| resolve := Idle; timeout_timer := timeout_timer a;
               connect := connect a; effects := effects a |}
      | _ => a
      end
  | TimerExpires =>
      {| resolve := resolve a;
         timeout_timer := option_map (finish success) (timeout_timer a);
         connect := connect a; effects := effects a |}
  | TimerHandlerRuns =>
      match timeout_timer a with
      | Some (Queued ec) =>
          timeout_handler ec
            {| resolve := resolve a; timeout_timer := Some Idle;
               connect := connect a; effects := effects a |}
      | _ => a
      end
  | ConnectFinishes ec =>
      {| resolve := resolve a; timeout_timer := timeout_timer a;
         connect := finish ec (connect a); effects := effects a |}
  | ConnectHandlerRuns =>
      match connect a with
      | Queued ec =>
          connect_handler ec
            {| resolve := resolve a; timeout_timer := timeout_timer a;
               connect := Idle; effects := effects a |}
      | _ => a
      end
  end.

Definition run (es : list Event) (a : Attempt) : Attempt :=
  fold_left (fun a e => step e a) es a.

End WithArguments.

(** No [set_option] throws. *)
Definition options_ok (config : TcpConfig) (socket : Answers) : bool :=
  (negb (no_delay config) || negb (is_error (no_delay_ec socket)))
  && (negb (keep_alive config) || negb (is_error (keep_alive_ec socket))).

Definition option_effects (fastopen : bool) (config : TcpConfig) : list Effect :=
  (if no_delay config then [SetNoDelay] else [])
  ++ (if keep_alive config then [SetKeepAlive] else [])
  ++ (if fastopen && fast_open config then [SetFastOpenConnect] else []).

Definition timer_effects (config : TcpConfig) : list Effect :=
  if (0 <? connect_time_out config)%Z
  then [ExpiresAfter (connect_time_out config); AsyncWait] else [].

(** Only a wait that was cancelled in time can still be delivered. *)
Definition settled (a : Attempt) : Prop :=
  resolve a = Idle /\ connect a = Idle
  /\ (timeout_timer a = None \/ timeout_timer a = Some Idle
      \/ timeout_timer a = Some (Queued operation_aborted)).

Definition destroys (l : list Effect) : nat :=
  List.length (filter (fun e => match e with Destroy => true | _ => false end) l).

Definition opens (l : list Effect) : nat :=
  List.length (filter (fun e => match e with Open _ => true | _ => false end) l).

Definition connects (l : list Effect) : list Entry :=
  flat_map (fun e => match e with AsyncConnect to => [to] | _ => [] end) l.

Definition connected_calls (l : list Effect) : nat :=
  List.length
    (filter (fun e => match e with ConnectedHandler => true | _ => false end) l).

(** An operation whose handler is still to be called. *)
Definition live (o : Op) : nat :=
  match o with Idle => 0 | _ => 1 end.

Definition live_timer (t : option Op) : nat :=
  match t with Some o => live o | None => 0 end.

(** What an attempt has done, and what the handlers still to be called can
    add to it. *)
Definition budget (a : Attempt) : Prop :=
  let r := match resolve a with Pending => 1 | _ => 0 end in
  opens (effects a) + r <= 1
  /\ List.length (connects (effects a)) + r <= 1
  /\ connected_calls (effects a) + live (connect a) + r <= 1
  /\ destroys (effects a) + live_timer (timeout_timer a) + live (connect a)
     + 2 * r <= 2.

(** Where an attempt stands is accounted for by what has happened: a
    connect that has finished, has finished in [es]; a connect was started,
    and [connected_handler()] called, only after the events that allow it. *)
Definition justified (es : list Event) (a : Attempt) : Prop :=
  (forall ec, connect a = Queued ec -> In (ConnectFinishes ec) es)
  /\ (connect a <> Idle ->
      exists first rest, In (Resolved success (first :: rest)) es)
  /\ (In ConnectedHandler (effects a) ->
      In (ConnectFinishes success) es
      /\ exists first rest, In (Resolved success (first :: rest)) es).

(** The uses of the timer. *)
Definition timer_uses (l : list Effect) : nat :=
  List.length
    (filter (fun e => match e with
                      | ExpiresAfter _ | AsyncWait | TimerCancel => true
                      | _ => false
                      end) l).

(** An attempt that has no timer and never had one. *)
Definition untimed (a : Attempt) : Prop :=
  timeout_timer a = None
  /\ timer_uses (effects a) = 0
  /\ destroys (effects a) + live (connect a)
     + match resolve a with Pending => 1 | _ => 0 end <= 1.

End Connector.

(** ** [connect_remote_server_ssl] (lines 250-272) *)

Module SslConnector.

Inductive Effect : Type :=
| Below (e : Connector.Effect)   (* done inside connect_out_socket *)
| AsyncHandshake                 (* out_socket.async_handshake(client, ...) *)
| Log (endpoint : string) (msg : string) (level : option Connector.Level)
                                 (* [None]: _log_with_endpoint's default level *)
| Destroy                        (* this_ptr->destroy() *)
| ConnectedHandler.              (* the caller's connected_handler() *)

(** One call of [connect_remote_server_ssl]: the call of
    [connect_out_socket] it makes, its handshake, and what has been done. *)
Record Attempt : Type := {
  below : Connector.Attempt;
  handshake : Op;
  effects : list Effect
}.

Section WithArguments.

Variable message : error_code -> string.
Variable TCP_FASTOPEN_CONNECT : bool.
Variables addr port in_endpoint : string.
Variable config : Connector.TcpConfig.
Variable socket : Connector.Answers.
(** [this_ptr->config.ssl.reuse_session] *)
Variable reuse_session : bool.
(** What [SSL_session_reused(ssl)] answers. *)
Variable SSL_session_reused : bool.

Definition emit (e : Effect) (s : Attempt) : Attempt :=
  {| below := below s; handshake := handshake s;
     effects := effects s ++ [e] |}.

(** The body of the function: it calls [connect_out_socket] on the next
    layer of the stream. *)
Definition connect_remote_server_ssl : Attempt :=
  {| below := Connector.connect_out_socket; handshake := Idle;
     effects := [] |}.

(** The lambda handed to [connect_out_socket] as its [connected_handler]
    (line 253). *)
Definition on_connected (s : Attempt) : Attempt :=
  let s1 := emit AsyncHandshake s in
  {| below := below s1; handshake := Pending; effects := effects s1 |}.

(** [async_handshake] handler (lines 254-270). *)
Definition handshake_handler (error : error_code) (s : Attempt) : Attempt :=
  if is_error error then
    emit Destroy
      (emit (Log in_endpoint
               ("SSL handshake failed with " +++ addr +++ ":" +++ port
                  +++ " reason: " +++ message error)
               (Some Connector.ERROR)) s)
  else
    let s1 := emit (Log in_endpoint "tunnel established" None) s in
    let s2 :=
      if reuse_session then
        if negb SSL_session_reused
        then emit (Log in_endpoint "SSL session not reused" None) s1
        else emit (Log in_endpoint "SSL session reused" None) s1
      else s1 in
    emit ConnectedHandler s2.

(** One thing [connect_out_socket] does; its call of [connected_handler]
    runs the lambda. *)
Definition absorb (s : Attempt) (e : Connector.Effect) : Attempt :=
  let s1 := emit (Below e) s in
  match e with
  | Connector.ConnectedHandler => on_connected s1
  | _ => s1
  end.

Inductive Event : Type :=
| Inner (e : Connector.Event)         (* an event of connect_out_socket *)
| HandshakeFinishes (ec : error_code)
| HandshakeHandlerRuns.

Definition step (e : Event) (s : Attempt) : Attempt :=
  match e with
  | Inner e =>
      let a' := Connector.step message TCP_FASTOPEN_CONNECT addr port
                  in_endpoint config socket e (below s) in
      (* what this step of connect_out_socket has done *)
      let fresh := skipn (List.length (Connector.effects (below s)))
                     (Connector.effects a') in
      fold_left absorb fresh
        {| below := a'; handshake := handshake s; effects := effects s |}
  | HandshakeFinishes ec =>
      {| below := below s; handshake := finish ec (handshake s);
         effects := effects s |}
  | HandshakeHandlerRuns =>
      match handshake s with
      | Queued ec =>
          handshake_handler ec
            {| below := below s; handshake := Idle; effects := effects s |}
      | _ => s
      end
  end.

Definition run (es : list Event) (s : Attempt) : Attempt :=
  fold_left (fun s e => step e s) es s.

End WithArguments.

(** What [connect_out_socket] did, in order. *)
Definition belows (l : list Effect) : list Connector.Effect :=
  flat_map (fun e => match e with Below x => [x] | _ => [] end) l.

Definition handshakes (l : list Effect) : nat :=
  List.length
    (filter (fun e => match e with AsyncHandshake => true | _ => false end) l).

Definition connected_calls (l : list Effect) : nat :=
  List.length
    (filter (fun e => match e with ConnectedHandler => true | _ => false end) l).

(** The calls of [destroy()] made by the handshake handler. *)
Definition destroys (l : list Effect) : nat :=
  List.length
    (filter (fun e => match e with Destroy => true | _ => false end) l).

(** Everything but the lines logged by the handshake handler. *)
Definition without_logs (l : list Effect) : list Effect :=
  filter (fun e => match e with Log _ _ _ => false | _ => true end) l.

(** What the trace and the states agree on. *)
Definition tunnel_inv (s : Attempt) : Prop :=
  belows (effects s) = Connector.effects (below s)
  /\ handshakes (effects s)
     = Connector.connected_calls (Connector.effects (below s))
  /\ connected_calls (effects s) + destroys (effects s)
     + Connector.live (handshake s)
     <= handshakes (effects s).

(** Two attempts that differ in their logs only. *)
Definition same_but_logs (s s' : Attempt) : Prop :=
  below s = below s' /\ handshake s = handshake s'
  /\ without_logs (effects s) = without_logs (effects s').

End SslConnector.

(** ** [shutdown_ssl_socket] (lines 274-295) *)

Module SslShutdown.

Inductive Effect : Type :=
| SocketCancel               (* socket.next_layer().cancel(ec) *)
| AsyncShutdown              (* socket.async_shutdown(ssl_shutdown_cb) *)
| ExpiresAfter (seconds : Z)
| AsyncWait                  (* ssl_shutdown_timer->async_wait(ssl_shutdown_cb) *)
| TimerCancel
| ShutdownBoth               (* socket.next_layer().shutdown(shutdown_both, ec) *)
| Close.                     (* socket.next_layer().close(ec) *)

(** One call of [shutdown_ssl_socket] on a socket. *)
Record Session : Type := {
  is_open : bool;              (* socket.next_layer().is_open() *)
  shutdown_op : Op;            (* the async_shutdown *)
  ssl_shutdown_timer : Op;     (* the timer's async_wait *)
  effects : list Effect
}.

Definition emit (e : Effect) (s : Session) : Session :=
  {| is_open := is_open s; shutdown_op := shutdown_op s;
     ssl_shutdown_timer := ssl_shutdown_timer s;
     effects := effects s ++ [e] |}.

(** The socket before the call. *)
Definition socket (open : bool) : Session :=
  {| is_open := open; shutdown_op := Idle; ssl_shutdown_timer := Idle;
     effects := [] |}.

(** [ssl_shutdown_cb] (lines 279-288): the handler of both operations. *)
Definition ssl_shutdown_cb (error : error_code) (s : Session) : Session :=
  if is_aborted error then s
  else
    (* ssl_shutdown_timer.get()->cancel(); *)
    let s1 := emit TimerCancel
                {| is_open := is_open s; shutdown_op := shutdown_op s;
                   ssl_shutdown_timer := cancel (ssl_shutdown_timer s);
                   effects := effects s |} in
    (* socket.next_layer().cancel(ec); *)
    let s2 := emit SocketCancel
                {| is_open := is_open s1; shutdown_op := cancel (shutdown_op s1);
                   ssl_shutdown_timer := ssl_shutdown_timer s1;
                   effects := effects s1 |} in
    let s3 := emit ShutdownBoth s2 in
    (* socket.next_layer().close(ec); *)
    emit Close
      {| is_open := false; shutdown_op := shutdown_op s3;
         ssl_shutdown_timer := ssl_shutdown_timer s3;
         effects := effects s3 |}.

(** The body of the function. *)
Definition shutdown_ssl_socket (s : Session) : Session :=
  if is_open s then
    let s1 := emit SocketCancel
                {| is_open := is_open s; shutdown_op := cancel (shutdown_op s);
                   ssl_shutdown_timer := ssl_shutdown_timer s;
                   effects := effects s |} in
    let s2 := emit AsyncShutdown
                {| is_open := is_open s1; shutdown_op := Pending;
                   ssl_shutdown_timer := ssl_shutdown_timer s1;
                   effects := effects s1 |} in
    let s3 := emit (ExpiresAfter 30) s2 in
    emit AsyncWait
      {| is_open := is_open s3; shutdown_op := shutdown_op s3;
         ssl_shutdown_timer := Pending; effects := effects s3 |}
  else s.

Inductive Event : Type :=
| ShutdownFinishes (ec : error_code)   (* the close-notify exchange ends *)
| TimerExpires                         (* 30 seconds have passed *)
| ShutdownHandlerRuns
| TimerHandlerRuns.

Definition step (e : Event) (s : Session) : Session :=
  match e with
  | ShutdownFinishes ec =>
      {| is_open := is_open s; shutdown_op := finish ec (shutdown_op s);
         ssl_shutdown_timer := ssl_shutdown_timer s; effects := effects s |}
  | TimerExpires =>
      {| is_open := is_open s; shutdown_op := shutdown_op s;
         ssl_shutdown_timer := finish success (ssl_shutdown_timer s);
         effects := effects s |}
  | ShutdownHandlerRuns =>
      match shutdown_op s with
      | Queued ec =>
          ssl_shutdown_cb ec
            {| is_open := is_open s; shutdown_op := Idle;
               ssl_shutdown_timer := ssl_shutdown_timer s;
               effects := effects s |}
      | _ => s
      end
  | TimerHandlerRuns =>
      match ssl_shutdown_timer s with
      | Queued ec =>
          ssl_shutdown_cb ec
            {| is_open := is_open s; shutdown_op := shutdown_op s;
               ssl_shutdown_timer := Idle; effects := effects s |}
      | _ => s
      end
  end.

Definition run (es : list Event) (s : Session) : Session :=
  fold_left (fun s e => step e s) es s.

Definition closes (l : list Effect) : nat :=
  List.length (filter (fun e => match e with Close => true | _ => false end) l).

(** Whatever is still to be delivered was cancelled in time. *)
Definition quiet (o : Op) : Prop :=
  o = Idle \/ o = Queued operation_aborted.

Definition settled (s : Session) : Prop :=
  quiet (shutdown_op s) /\ quiet (ssl_shutdown_timer s).

(** The teardown of [ssl_shutdown_cb], as effects. *)
Definition teardown : list Effect :=
  [TimerCancel; SocketCancel; ShutdownBoth; Close].

Definition started : list Effect :=
  [SocketCancel; AsyncShutdown; ExpiresAfter 30; AsyncWait].

(** An operation whose handler can still run the teardown. *)
Definition armed (o : Op) : nat :=
  match o with
  | Idle => 0
  | Pending => 1
  | Queued ec => if is_aborted ec then 0 else 1
  end.

Definition shutdown_inv (s : Session) : Prop :=
  closes (effects s) + armed (shutdown_op s) + armed (ssl_shutdown_timer s) <= 2
  /\ (is_open s = false <-> 1 <= closes (effects s))
  /\ (armed (ssl_shutdown_timer s) = 0 -> 1 <= closes (effects s)).

End SslShutdown.

(** * Properties *)

Unset Implicit Arguments.

(** ** The constants *)

Module MacrosFacts.
Import Macros.

Lemma ifndef_defined (v literal : Z) : ifndef (Some v) literal = v.
Proof. reflexivity. Qed.

Lemma ifndef_undefined (literal : Z) : ifndef None literal = literal.
Proof. reflexivity. Qed.

(** C10: the header overhead is 95 bytes, the default packet size is 1397,
    which is 1492 minus the header overhead, and where the platform's
    headers define none of the option names the fallback literals are
    SO_ORIGINAL_DST = 80, IP6T_SO_ORIGINAL_DST = 80, IP_TRANSPARENT = 19,
    IP_RECVORIGDSTADDR = 20, IPV6_RECVORIGDSTADDR = 74, IP_RECVTTL = 12,
    IPV6_RECVHOPLIMIT = 51, IPV6_HOPLIMIT = 21 and IP_TTL = 4. *)
Theorem constants_values :
  PACKET_HEADER_SIZE = 95%Z
  /\ DEFAULT_PACKET_SIZE = 1397%Z
  /\ DEFAULT_PACKET_SIZE = (1492 - PACKET_HEADER_SIZE)%Z
  /\ SO_ORIGINAL_DST bare = 80%Z
  /\ IP6T_SO_ORIGINAL_DST bare = 80%Z
  /\ IP_TRANSPARENT bare = 19%Z
  /\ IP_RECVORIGDSTADDR bare = 20%Z
  /\ IPV6_RECVORIGDSTADDR bare = 74%Z
  /\ IP_RECVTTL bare = 12%Z
  /\ IPV6_RECVHOPLIMIT bare = 51%Z
  /\ IPV6_HOPLIMIT bare = 21%Z
  /\ IP_TTL bare = 4%Z.
Proof. repeat split. Qed.

End MacrosFacts.

(** ** The write cache *)

Module SendDataCacheFacts.
Import SendDataCache.

Ltac split3 := split; [|split].

(** *** Readings of a trace *)

Lemma writes_app t u : writes (t ++ u) = writes t ++ writes u.
Proof. apply flat_map_app. Qed.

Lemma dones_app t u : dones (t ++ u) = dones t ++ dones u.
Proof. apply flat_map_app. Qed.

Lemma registered_app t u : registered (t ++ u) = registered t ++ registered u.
Proof. apply flat_map_app. Qed.

Lemma fired_app t u : fired (t ++ u) = fired t ++ fired u.
Proof. apply flat_map_app. Qed.

Lemma fired_fires ec l : fired (fires ec l) = names l.
Proof. induction l as [|h l IH]; simpl; [reflexivity | now rewrite IH]. Qed.

Lemma always_single_nil : always_single [].
Proof.
  intros p q E. symmetry in E. apply app_eq_nil in E as [-> _].
  unfold single; simpl; lia.
Qed.

Lemma always_single_snoc t o :
  always_single t -> single (t ++ [o]) -> always_single (t ++ [o]).
Proof.
  intros Ht Ho p q E.
  destruct q as [|x q' _] using rev_ind.
  - rewrite app_nil_r in E. now subst p.
  - rewrite app_assoc in E. apply app_inj_tail in E as [E _].
    now apply (Ht p q').
Qed.

Lemma always_single_last t : always_single t -> single t.
Proof. intros H. apply (H t []). now rewrite app_nil_r. Qed.

(** *** [async_send] *)

Lemma async_send_blocked w : blocked w = true -> async_send w = w.
Proof. unfold blocked, async_send. cbv zeta. now intros ->. Qed.

Lemma async_send_started w :
  blocked w = false ->
  async_send w =
    {| cache :=
         {| handler_queue := [];
            data_queue := EmptyString;
            sending_data_buff := data_queue (cache w);
            sending_data_handler :=
              sending_data_handler (cache w) ++ handler_queue (cache w);
            is_async_sending := true;
            is_connected := is_connected (cache w) |};
       link_up := link_up w;
       outstanding := S (outstanding w);
       trace := trace w ++ [Write (data_queue (cache w))] |}.
Proof. unfold blocked, async_send. cbv zeta. now intros ->. Qed.

(** *** One write at a time *)

Lemma flight_inv_init up : flight_inv (init up).
Proof.
  split; [apply always_single_nil | split; reflexivity].
Qed.

Lemma single_quiet t o : quiet o -> single t -> single (t ++ [o]).
Proof.
  unfold single. rewrite writes_app, dones_app.
  destruct o; simpl; try contradiction; rewrite !app_nil_r; auto.
Qed.

Lemma flight_inv_observe o w :
  quiet o -> flight_inv w -> flight_inv (observe o w).
Proof.
  intros Q (A & B & C). split3; simpl.
  - apply always_single_snoc; auto.
    apply single_quiet; auto using always_single_last.
  - rewrite writes_app, dones_app.
    destruct o; simpl in *; try contradiction; now rewrite !app_nil_r.
  - exact C.
Qed.

(** A change of the cache that leaves the flag alone. *)
Lemma flight_inv_with_cache c w :
  is_async_sending c = is_async_sending (cache w) ->
  flight_inv w -> flight_inv (with_cache c w).
Proof.
  intros E (A & B & C). split3; simpl; auto. now rewrite E.
Qed.

Lemma flight_inv_async_send w : flight_inv w -> flight_inv (async_send w).
Proof.
  intros (A & B & C).
  destruct (blocked w) eqn:G.
  - rewrite async_send_blocked by assumption. split3; assumption.
  - rewrite async_send_started by assumption.
    unfold blocked in G. apply orb_false_iff in G as [_ G].
    rewrite G in C.
    assert (S : single (trace w ++ [Write (data_queue (cache w))])).
    { unfold single. rewrite writes_app, dones_app, !length_app. simpl. lia. }
    split3; simpl.
    + now apply always_single_snoc.
    + rewrite writes_app, dones_app, !length_app. simpl. lia.
    + lia.
Qed.

Lemma flight_inv_insert_data d w :
  flight_inv w -> flight_inv (insert_data d w).
Proof.
  intros H. apply flight_inv_async_send.
  now apply flight_inv_with_cache.
Qed.

Lemma flight_inv_push_data d h w :
  flight_inv w -> flight_inv (push_data d h w).
Proof.
  intros H. apply flight_inv_async_send.
  apply flight_inv_observe; [exact I|].
  now apply flight_inv_with_cache.
Qed.

Lemma flight_inv_exec a w : flight_inv w -> flight_inv (exec a w).
Proof.
  destruct a; simpl;
    auto using flight_inv_push_data, flight_inv_insert_data,
               flight_inv_async_send.
Qed.

Lemma flight_inv_exec_all l w : flight_inv w -> flight_inv (exec_all l w).
Proof.
  revert w. induction l as [|a l IH]; intros w H; simpl; auto.
  apply IH. now apply flight_inv_exec.
Qed.

Lemma flight_inv_call h ec w : flight_inv w -> flight_inv (call h ec w).
Proof.
  intros H. apply flight_inv_exec_all. now apply flight_inv_observe.
Qed.

Lemma flight_inv_fire_from fuel ec :
  forall i w w',
    flight_inv w -> fire_from fuel i ec w = Some w' -> flight_inv w'.
Proof.
  induction fuel as [|fuel IH]; intros i w w' H E; simpl in E;
    destruct (nth_error (sending_data_handler (cache w)) i) as [h|];
    try discriminate; try (injection E as <-; assumption).
  apply (IH _ _ _ (flight_inv_call h ec w H) E).
Qed.

(** Entering the lambda: the completion is delivered and the flag is
    cleared. *)
Lemma flight_inv_enter ec n w :
  flight_inv w -> outstanding w = S n ->
  flight_inv
    (clear_flag {| cache := cache w; link_up := link_up w; outstanding := n;
                   trace := trace w ++ [Done ec] |}).
Proof.
  intros (A & B & C) O. rewrite O in *.
  destruct (is_async_sending (cache w)); [|discriminate].
  injection C as ->.
  assert (S : single (trace w ++ [Done ec])).
  { unfold single. rewrite writes_app, dones_app, !length_app. simpl. lia. }
  split3; simpl.
  - now apply always_single_snoc.
  - rewrite writes_app, dones_app, !length_app. simpl. lia.
  - reflexivity.
Qed.

Lemma flight_inv_clear_sending w :
  flight_inv w -> flight_inv (clear_sending w).
Proof. intros H. now apply flight_inv_with_cache. Qed.

Lemma flight_inv_complete ec w w' :
  flight_inv w -> complete ec w = Some w' -> flight_inv w'.
Proof.
  unfold complete. intros H E.
  destruct (outstanding w) as [|n] eqn:O.
  - now injection E as <-.
  - pose proof (flight_inv_enter ec n w H O) as H1.
    unfold on_sent, on_sent_fuel in E. cbv zeta in E.
    destruct (is_error ec).
    + now injection E as <-.
    + match type of E with
      | match ?f with _ => _ end = _ => destruct f as [w2|] eqn:F
      end; [|discriminate].
      injection E as <-.
      apply flight_inv_async_send, flight_inv_clear_sending.
      exact (flight_inv_fire_from _ _ _ _ _ H1 F).
Qed.

Lemma flight_inv_step e w w' :
  flight_inv w -> step e w = Some w' -> flight_inv w'.
Proof.
  destruct e as [a|ec]; simpl.
  - intros H E. injection E as <-. now apply flight_inv_exec.
  - apply flight_inv_complete.
Qed.

Lemma flight_inv_run es :
  forall w w', flight_inv w -> run es w = Some w' -> flight_inv w'.
Proof.
  induction es as [|e es IH]; intros w w' H E; simpl in E.
  - now injection E as <-.
  - destruct (step e w) as [w1|] eqn:S1; [|discriminate].
    exact (IH _ _ (flight_inv_step _ _ _ H S1) E).
Qed.

(** *** The firing loop ends *)

Lemma sent_weight_body h :
  weight h = S (list_sum (map action_weight (body h))).
Proof.
  destruct h as [n b]. simpl. f_equal.
  induction b as [|a b IH]; simpl; [reflexivity | now rewrite IH].
Qed.

Lemma weight_pos h : 1 <= weight h.
Proof. rewrite sent_weight_body. lia. Qed.

Lemma weights_app l1 l2 : weights (l1 ++ l2) = weights l1 + weights l2.
Proof. unfold weights. now rewrite map_app, list_sum_app. Qed.

Lemma firstn_at {A} (l1 l2 : list A) : firstn (List.length l1) (l1 ++ l2) = l1.
Proof. induction l1 as [|x l1 IH]; simpl; [now destruct l2 | now rewrite IH]. Qed.

Lemma skipn_at {A} (l1 l2 : list A) : skipn (List.length l1) (l1 ++ l2) = l2.
Proof. induction l1 as [|x l1 IH]; simpl; auto. Qed.

(** The part of a vector before and at a valid index is not changed by
    appending to the vector. *)
Lemma nth_error_parts {A} (l : list A) i h :
  nth_error l i = Some h ->
  exists l2,
    l = firstn i l ++ h :: l2
    /\ skipn i l = h :: l2
    /\ skipn (S i) l = l2
    /\ (forall ext, firstn (S i) (l ++ ext) = firstn i l ++ [h])
    /\ (forall ext, nth_error (l ++ ext) i = Some h).
Proof.
  intros E. destruct (nth_error_split l i E) as (l1 & l2 & -> & <-).
  exists l2. rewrite firstn_at, skipn_at.
  split; [reflexivity|]. split; [reflexivity|]. split; [|split].
  - replace (l1 ++ h :: l2) with ((l1 ++ [h]) ++ l2)
      by now rewrite <- app_assoc.
    replace (S (List.length l1)) with (List.length (l1 ++ [h]))
      by (rewrite length_app; simpl; lia).
    apply skipn_at.
  - intros ext.
    replace ((l1 ++ h :: l2) ++ ext) with ((l1 ++ [h]) ++ l2 ++ ext)
      by now rewrite <- !app_assoc.
    replace (S (List.length l1)) with (List.length (l1 ++ [h]))
      by (rewrite length_app; simpl; lia).
    apply firstn_at.
  - intros ext. rewrite <- app_assoc. simpl.
    now rewrite nth_error_app2, Nat.sub_diag by lia.
Qed.

Lemma grows_trans j k w1 w2 w3 :
  grows j w1 w2 -> grows k w2 w3 -> grows (j + k) w1 w3.
Proof.
  intros [[e1 E1] W1] [[e2 E2] W2]. split.
  - exists (e1 ++ e2). now rewrite E2, E1, app_assoc.
  - lia.
Qed.

Lemma grows_refl w w' :
  sending_data_handler (cache w') = sending_data_handler (cache w) ->
  handler_queue (cache w') = handler_queue (cache w) ->
  grows 0 w w'.
Proof.
  intros E1 E2. split.
  - exists []. now rewrite app_nil_r.
  - unfold enough. rewrite E1, E2. lia.
Qed.

Lemma grows_async_send w : grows 0 w (async_send w).
Proof.
  destruct (blocked w) eqn:G.
  - rewrite async_send_blocked by assumption. now apply grows_refl.
  - rewrite async_send_started by assumption. split; simpl.
    + now exists (handler_queue (cache w)).
    + unfold enough; simpl. rewrite weights_app. unfold weights; simpl. lia.
Qed.

Lemma grows_exec a w : grows (action_weight a) w (exec a w).
Proof.
  destruct a as [d h| d | | f | up]; simpl.
  - unfold push_data. cbv zeta.
    replace (weight h) with (weight h + 0) by lia.
    eapply grows_trans; [|apply grows_async_send].
    split; simpl.
    + exists []. now rewrite app_nil_r.
    + unfold enough; simpl. rewrite weights_app.
      unfold weights at 3; simpl. lia.
  - unfold insert_data. cbv zeta.
    change 0 with (0 + 0).
    eapply grows_trans; [|apply grows_async_send].
    now apply grows_refl.
  - apply grows_async_send.
  - now apply grows_refl.
  - now apply grows_refl.
Qed.

Lemma grows_exec_all l :
  forall w, grows (list_sum (map action_weight l)) w (exec_all l w).
Proof.
  induction l as [|a l IH]; intros w; simpl.
  - now apply grows_refl.
  - eapply grows_trans; [apply grows_exec | apply IH].
Qed.

Lemma grows_call h ec w :
  grows (list_sum (map action_weight (body h))) w (call h ec w).
Proof.
  unfold call.
  change (list_sum (map action_weight (body h)))
    with (0 + list_sum (map action_weight (body h))).
  eapply grows_trans; [|apply grows_exec_all].
  now apply grows_refl.
Qed.

Lemma fire_from_total ec fuel :
  forall i w,
    enough w <= fuel + weights (firstn i (sending_data_handler (cache w))) ->
    exists w', fire_from fuel i ec w = Some w'.
Proof.
  induction fuel as [|fuel IH]; intros i w B; simpl;
    destruct (nth_error (sending_data_handler (cache w)) i) as [h|] eqn:N;
    try (now eexists).
  - exfalso.
    destruct (nth_error_parts _ _ _ N) as (l2 & E & _).
    unfold enough in B. rewrite E in B at 1.
    rewrite !weights_app in B. unfold weights at 2 in B. simpl in B.
    pose proof (weight_pos h). simpl in B. lia.
  - apply IH.
    destruct (grows_call h ec w) as [[ext X] W].
    destruct (nth_error_parts _ _ _ N) as (l2 & _ & _ & _ & F & _).
    rewrite X, F, weights_app, W.
    unfold weights at 2. simpl.
    pose proof (sent_weight_body h). lia.
Qed.

Lemma on_sent_total ec w : exists w', on_sent ec w = Some w'.
Proof.
  unfold on_sent, on_sent_fuel. cbv zeta.
  destruct (is_error ec); [now eexists|].
  destruct (fire_from_total ec (enough w) 0 (clear_flag w)) as [w2 ->].
  - simpl. unfold enough; simpl. lia.
  - now eexists.
Qed.

Lemma complete_total ec w : exists w', complete ec w = Some w'.
Proof.
  unfold complete. destruct (outstanding w); [now eexists|].
  apply on_sent_total.
Qed.

Lemma step_total e w : exists w', step e w = Some w'.
Proof. destruct e; simpl; [now eexists | apply complete_total]. Qed.

Lemma send_run_total es : forall w, exists w', run es w = Some w'.
Proof.
  induction es as [|e es IH]; intros w; simpl; [now eexists|].
  destruct (step_total e w) as [w1 ->]. apply IH.
Qed.

(** *** Handlers fire in the order of registration *)

Lemma trace_async_send w :
  registered (trace (async_send w)) = registered (trace w)
  /\ fired (trace (async_send w)) = fired (trace w).
Proof.
  destruct (blocked w) eqn:G.
  - now rewrite async_send_blocked.
  - rewrite async_send_started by assumption. simpl.
    rewrite registered_app, fired_app. simpl. now rewrite !app_nil_r.
Qed.

Lemma fired_exec a w : fired (trace (exec a w)) = fired (trace w).
Proof.
  destruct a; simpl; try reflexivity;
    unfold push_data, insert_data; cbv zeta;
    rewrite (proj2 (trace_async_send _)); simpl; try reflexivity.
  rewrite fired_app. simpl. now rewrite app_nil_r.
Qed.

Lemma fired_exec_all l : forall w, fired (trace (exec_all l w)) = fired (trace w).
Proof.
  induction l as [|a l IH]; intros w; simpl; [reflexivity|].
  now rewrite IH, fired_exec.
Qed.

Lemma fired_call h ec w :
  fired (trace (call h ec w)) = fired (trace w) ++ [name h].
Proof.
  unfold call. rewrite fired_exec_all. simpl. now rewrite fired_app.
Qed.

Lemma skipn_app_le {A} i (l ext : list A) :
  i <= List.length l -> skipn i (l ++ ext) = skipn i l ++ ext.
Proof.
  intros L. rewrite skipn_app.
  replace (i - List.length l) with 0 by lia. reflexivity.
Qed.

Lemma nth_error_bound {A} (l : list A) i h :
  nth_error l i = Some h -> S i <= List.length l.
Proof. intros E. apply nth_error_Some. congruence. Qed.

(** The loop fires the handlers in flight from [i] on, in order, and
    then whatever was appended behind them meanwhile. *)
Lemma fired_fire_from ec fuel :
  forall i w w',
    fire_from fuel i ec w = Some w' ->
    exists extra,
      fired (trace w')
      = fired (trace w)
        ++ names (skipn i (sending_data_handler (cache w))) ++ extra.
Proof.
  induction fuel as [|fuel IH]; intros i w w' E; simpl in E;
    destruct (nth_error (sending_data_handler (cache w)) i) as [h|] eqn:N;
    try discriminate;
    try (injection E as <-; exists [];
         apply nth_error_None in N; rewrite skipn_all2 by assumption;
         simpl; now rewrite app_nil_r).
  destruct (IH _ _ _ E) as [extra X].
  destruct (grows_call h ec w) as [[ext G] _].
  destruct (nth_error_parts _ _ _ N) as (l2 & _ & S0 & S1 & _).
  pose proof (nth_error_bound _ _ _ N) as L.
  rewrite X, fired_call, G, skipn_app_le, S0, S1 by assumption.
  exists (names ext ++ extra).
  unfold names. rewrite map_app. simpl.
  now rewrite <- !app_assoc.
Qed.

Lemma order_inv_init up : order_inv 0 (init up).
Proof. split; simpl; [lia | reflexivity]. Qed.

Lemma order_inv_async_send i w :
  order_inv i w -> order_inv i (async_send w).
Proof.
  intros [L E].
  destruct (blocked w) eqn:G.
  - now rewrite async_send_blocked.
  - rewrite async_send_started by assumption. split; simpl.
    + rewrite length_app. lia.
    + rewrite registered_app, fired_app. simpl.
      rewrite !app_nil_r, skipn_app_le by assumption.
      unfold names in *. now rewrite map_app.
Qed.

Lemma order_inv_exec i a w : order_inv i w -> order_inv i (exec a w).
Proof.
  intros [L E]. destruct a as [d h| d | | f | up]; simpl.
  - apply order_inv_async_send. split; simpl; [exact L|].
    rewrite registered_app, fired_app, E. simpl.
    unfold names. rewrite map_app, app_nil_r. simpl.
    now rewrite <- !app_assoc.
  - apply order_inv_async_send. now split.
  - apply order_inv_async_send. now split.
  - now split.
  - now split.
Qed.

Lemma order_inv_exec_all i l :
  forall w, order_inv i w -> order_inv i (exec_all l w).
Proof.
  induction l as [|a l IH]; intros w H; simpl; auto using order_inv_exec.
Qed.

Lemma order_inv_call i h ec w :
  nth_error (sending_data_handler (cache w)) i = Some h ->
  order_inv i w -> order_inv (S i) (call h ec w).
Proof.
  intros N [L E]. apply order_inv_exec_all.
  destruct (nth_error_parts _ _ _ N) as (l2 & _ & S0 & S1 & _).
  split.
  - now apply nth_error_bound with h.
  - unfold observe; cbn [trace cache].
    rewrite registered_app, fired_app, E, S0, S1. simpl.
    now rewrite app_nil_r, <- !app_assoc.
Qed.

Lemma order_inv_fire_from ec fuel :
  forall i w w',
    order_inv i w -> fire_from fuel i ec w = Some w' ->
    registered (trace w')
    = fired (trace w') ++ names (handler_queue (cache w')).
Proof.
  assert (Exit : forall i w,
             order_inv i w ->
             nth_error (sending_data_handler (cache w)) i = None ->
             registered (trace w)
             = fired (trace w) ++ names (handler_queue (cache w))).
  { intros i w [L E] N. apply nth_error_None in N.
    now rewrite skipn_all2 in E by assumption. }
  induction fuel as [|fuel IH]; intros i w w' H E; simpl in E;
    destruct (nth_error (sending_data_handler (cache w)) i) as [h|] eqn:N;
    try discriminate; try (injection E as <-; now apply Exit with i).
  exact (IH _ _ _ (order_inv_call i h ec w N H) E).
Qed.

Lemma order_inv_complete ec w w' :
  order_inv 0 w -> complete ec w = Some w' -> order_inv 0 w'.
Proof.
  unfold complete. intros H E.
  destruct (outstanding w) as [|n].
  - now injection E as <-.
  - unfold on_sent, on_sent_fuel in E. cbv zeta in E.
    match type of E with
    | context [fire_from ?f 0 ec ?w1] =>
        assert (H1 : order_inv 0 w1)
    end.
    { destruct H as [L X]. split; simpl; [exact L|].
      rewrite registered_app, fired_app. simpl. now rewrite !app_nil_r. }
    destruct (is_error ec).
    + now injection E as <-.
    + match type of E with
      | match ?f with _ => _ end = _ => destruct f as [w2|] eqn:F
      end; [|discriminate].
      injection E as <-.
      apply order_inv_async_send. split; simpl; [lia|].
      exact (order_inv_fire_from _ _ _ _ _ H1 F).
Qed.

Lemma order_inv_run es :
  forall w w', order_inv 0 w -> run es w = Some w' -> order_inv 0 w'.
Proof.
  induction es as [|e es IH]; intros w w' H E; simpl in E.
  - now injection E as <-.
  - destruct (step e w) as [w1|] eqn:S1; [|discriminate].
    apply (IH w1 w'); [|exact E].
    destruct e as [a|ec]; simpl in S1.
    + injection S1 as <-. now apply order_inv_exec.
    + exact (order_inv_complete _ _ _ H S1).
Qed.

(** *** Handlers that make no call on the cache *)

Lemma length_le_weights l : List.length l <= weights l.
Proof.
  induction l as [|h l IH]; simpl; [lia|].
  unfold weights in *. simpl. pose proof (weight_pos h). lia.
Qed.

Lemma call_plain h ec w :
  plain h -> call h ec w = observe (Fired (name h) ec) w.
Proof. unfold plain, call. now intros ->. Qed.

Lemma fire_from_plain ec fuel :
  forall i w,
    Forall plain (sending_data_handler (cache w)) ->
    List.length (sending_data_handler (cache w)) <= fuel + i ->
    fire_from fuel i ec w
    = Some {| cache := cache w; link_up := link_up w;
              outstanding := outstanding w;
              trace := trace w
                       ++ fires ec (skipn i (sending_data_handler (cache w))) |}.
Proof.
  assert (Exit : forall i w,
             nth_error (sending_data_handler (cache w)) i = None ->
             Some w
             = Some {| cache := cache w; link_up := link_up w;
                       outstanding := outstanding w;
                       trace := trace w
                                ++ fires ec (skipn i (sending_data_handler (cache w))) |}).
  { intros i w N. apply nth_error_None in N.
    rewrite skipn_all2 by assumption. simpl. rewrite app_nil_r.
    now destruct w. }
  induction fuel as [|fuel IH]; intros i w P B; simpl;
    destruct (nth_error (sending_data_handler (cache w)) i) as [h|] eqn:N;
    auto.
  - apply nth_error_bound in N. lia.
  - assert (Ph : plain h).
    { rewrite Forall_forall in P. apply P. eapply nth_error_In; eassumption. }
    rewrite (call_plain h ec w Ph), IH; [|assumption|simpl; lia].
    destruct (nth_error_parts _ _ _ N) as (l2 & _ & S0 & S1 & _).
    unfold observe; cbn [cache link_up outstanding trace].
    rewrite S0, S1. simpl. now rewrite <- app_assoc.
Qed.

Lemma blocked_async_send w : blocked (async_send w) = true.
Proof.
  destruct (blocked w) eqn:G.
  - now rewrite async_send_blocked.
  - rewrite async_send_started by assumption. reflexivity.
Qed.

(** C1: [async_send] returns without doing anything when the data queue
    is empty, when [is_connected()] is false, or when a write is in
    flight; otherwise it moves the whole queue, bytes and handlers, into
    the in-flight members, empties the queue, sets the flag and calls the
    writer once with the bytes.  Data pushed or inserted while the flag is
    set stays in the queue and no write is started.  In every run of
    calls and completions, successful or not, whose handlers make no call
    on the cache, the run returns and at every moment at most one write is
    in flight. *)
Theorem one_write_at_a_time :
  (forall w,
      empty (data_queue (cache w)) = true
      \/ is_connected (cache w) (link_up w) = false
      \/ is_async_sending (cache w) = true ->
      async_send w = w)
  /\ (forall w,
         empty (data_queue (cache w)) = false ->
         is_connected (cache w) (link_up w) = true ->
         is_async_sending (cache w) = false ->
         async_send w =
           {| cache :=
                {| handler_queue := [];
                   data_queue := EmptyString;
                   sending_data_buff := data_queue (cache w);
                   sending_data_handler :=
                     sending_data_handler (cache w) ++ handler_queue (cache w);
                   is_async_sending := true;
                   is_connected := is_connected (cache w) |};
              link_up := link_up w;
              outstanding := S (outstanding w);
              trace := trace w ++ [Write (data_queue (cache w))] |})
  /\ (forall w data handler,
         is_async_sending (cache w) = true ->
         trace (push_data data handler w)
         = trace w ++ [Registered (name handler)]
         /\ outstanding (push_data data handler w) = outstanding w
         /\ data_queue (cache (push_data data handler w))
            = String.append (data_queue (cache w)) data
         /\ handler_queue (cache (push_data data handler w))
            = handler_queue (cache w) ++ [handler])
  /\ (forall w data,
         is_async_sending (cache w) = true ->
         trace (insert_data data w) = trace w
         /\ outstanding (insert_data data w) = outstanding w
         /\ data_queue (cache (insert_data data w))
            = String.append data (data_queue (cache w)))
  /\ (forall up es,
         Forall calls_plain es ->
         match run es (init up) with
         | Some w =>
             always_single (trace w)
             /\ outstanding w = in_flight (trace w)
             /\ outstanding w <= 1
             /\ (outstanding w = 1 <-> is_async_sending (cache w) = true)
         | None => False
         end).
Proof.
  split; [|split; [|split; [|split]]].
  - intros w H. apply async_send_blocked. unfold blocked.
    destruct H as [-> | [-> | ->]]; simpl;
      rewrite ?orb_true_r; reflexivity.
  - intros w H1 H2 H3. apply async_send_started. unfold blocked.
    now rewrite H1, H2, H3.
  - intros w d h F. unfold push_data. cbv zeta.
    rewrite async_send_blocked; [simpl; auto|].
    unfold blocked. simpl. rewrite F. apply orb_true_r.
  - intros w d F. unfold insert_data. cbv zeta.
    rewrite async_send_blocked; [simpl; auto|].
    unfold blocked. simpl. rewrite F. apply orb_true_r.
  - intros up es _.
    destruct (send_run_total es (init up)) as [w E]. rewrite E.
    destruct (flight_inv_run es _ _ (flight_inv_init up) E) as (A & B & C).
    split; [exact A|].
    unfold in_flight.
    destruct (is_async_sending (cache w)); (split; [lia|]);
      (split; [lia|]); split; intros; (congruence || lia).
Qed.

(** The cases of C1 on a fresh cache, on one with a write in flight and
    on one that can send, and a run of three pushes, an insert, a failed
    and a successful completion. *)
Lemma one_write_at_a_time_witness :
  async_send (init true) = init true
  /\ trace (async_send
              (set_link true
                 (insert_data "ab"
                    (set_is_connected_func (fun up => up) (init false)))))
     = [Write "ab"%string]
  /\ trace (push_data "b" (Handler 2 [])
              (push_data "a" (Handler 1 []) (init true)))
     = [Registered 1; Write "a"%string; Registered 2]
  /\ trace (insert_data "b" (push_data "a" (Handler 1 []) (init true)))
     = [Registered 1; Write "a"%string]
  /\ match run [Call (PushData "a" (Handler 1 []));
                Call (PushData "b" (Handler 2 []));
                Call (InsertData "c");
                Complete (failure 1);
                Call (PushData "d" (Handler 3 []));
                Complete success]
             (init true) with
     | Some w =>
         always_single (trace w)
         /\ outstanding w = in_flight (trace w)
         /\ outstanding w <= 1
         /\ (outstanding w = 1 <-> is_async_sending (cache w) = true)
     | None => False
     end.
Proof.
  destruct one_write_at_a_time as (A & B & C & D & E).
  split; [|split; [|split; [|split]]];
    [| | | |apply (E true); repeat constructor].
  - apply A. left. reflexivity.
  - rewrite B; reflexivity.
  - destruct (C (push_data "a" (Handler 1 []) (init true)) "b"%string
                (Handler 2 [])) as [T _]; [reflexivity|].
    rewrite T. reflexivity.
  - destruct (D (push_data "a" (Handler 1 []) (init true)) "b"%string)
      as [T _]; [reflexivity|].
    rewrite T. reflexivity.
Defined.

(** With handlers that make no call, handlers fire in the order of
    registration and none twice: in every such run the handlers registered
    are, in order, those fired so far, those in flight and those queued. *)
Lemma fired_in_registration_order up es :
  Forall calls_plain es ->
  match run es (init up) with
  | Some w =>
      registered (trace w)
      = fired (trace w)
        ++ names (sending_data_handler (cache w))
        ++ names (handler_queue (cache w))
  | None => False
  end.
Proof.
  intros _.
  destruct (send_run_total es (init up)) as [w E]. rewrite E.
  destruct (order_inv_run es _ _ (order_inv_init up) E) as [_ X].
  exact X.
Qed.


(** *** A write that fails *)

(** On an error the lambda clears the flag and returns: no handler is
    called, and every member but the flag is as it was.  The handlers in
    flight stay in [sending_data_handler]. *)
Lemma complete_failed ec w n :
  is_error ec = true -> outstanding w = S n ->
  complete ec w
  = Some {| cache := cache (clear_flag w); link_up := link_up w;
            outstanding := n; trace := trace w ++ [Done ec] |}.
Proof.
  intros F O. unfold complete, on_sent, on_sent_fuel. rewrite O.
  cbv zeta. now rewrite F.
Qed.

(** The bytes of a failed write are not handed to the writer again: the
    next write carries the queue only. *)
Lemma failed_bytes_not_sent_again ec w n :
  is_error ec = true -> outstanding w = S n ->
  exists w1,
    complete ec w = Some w1
    /\ data_queue (cache w1) = data_queue (cache w)
    /\ (blocked w1 = false ->
        trace (async_send w1)
        = trace w ++ [Done ec; Write (data_queue (cache w))]).
Proof.
  intros F O. rewrite (complete_failed ec w n F O).
  eexists. split; [reflexivity|]. split; [reflexivity|].
  intros B. rewrite async_send_started by assumption. simpl.
  now rewrite <- app_assoc.
Qed.

(** C3, on the run [push("a", c1)], the write fails, [push("b", c2)], the
    write succeeds: the failure fires nothing and "a" is not written
    again, but [c1], registered for the failed bytes, is still in
    [sending_data_handler] and is called, with success, when the write of
    "b" completes. *)
Theorem failed_handlers_fire_on_next_success :
  option_map trace
    (run [Call (PushData "a" (Handler 1 []));
          Complete (failure 1);
          Call (PushData "b" (Handler 2 []));
          Complete success]
       (init true))
  = Some [Registered 1; Write "a"%string; Done (failure 1);
          Registered 2; Write "b"%string; Done success;
          Fired 1 success; Fired 2 success].
Proof. reflexivity. Qed.

(** *** Calls made from inside a handler *)

(** C4, on the run [push("a", c1)] where [c1] calls [push("b", c2)], then
    the write of "a" succeeds: the flag is already cleared when [c1] runs,
    so its push starts the write of "b" and appends [c2] to the vector the
    loop is walking; the loop calls [c2] in the same pass, while the write
    of "b" is still in flight. *)
Theorem reentrant_push_fires_early :
  option_map (fun w => (trace w, outstanding w))
    (run [Call (PushData "a" (Handler 1 [PushData "b" (Handler 2 [])]));
          Complete success]
       (init true))
  = Some ([Registered 1; Write "a"%string; Done success;
           Fired 1 success;
           Registered 2; Write "b"%string;
           Fired 2 success],
          1).
Proof. reflexivity. Qed.

(** The same two runs with any names and any bytes, provided there are
    bytes to write. *)
Lemma stale_handlers_fire n1 n2 c1 s1 c2 s2 k :
  option_map trace
    (run [Call (PushData (String c1 s1) (Handler n1 []));
          Complete (failure k);
          Call (PushData (String c2 s2) (Handler n2 []));
          Complete success]
       (init true))
  = Some [Registered n1; Write (String c1 s1); Done (failure k);
          Registered n2; Write (String c2 s2); Done success;
          Fired n1 success; Fired n2 success].
Proof. reflexivity. Qed.

Lemma inner_push_fires_early n1 n2 c1 s1 c2 s2 :
  option_map (fun w => (trace w, outstanding w))
    (run [Call (PushData (String c1 s1)
                  (Handler n1 [PushData (String c2 s2) (Handler n2 [])]));
          Complete success]
       (init true))
  = Some ([Registered n1; Write (String c1 s1); Done success;
           Fired n1 success;
           Registered n2; Write (String c2 s2);
           Fired n2 success],
          1).
Proof. reflexivity. Qed.

(** *** The order of the bytes *)

Lemma append_nil_r s : String.append s EmptyString = s.
Proof. induction s as [|c s IH]; simpl; [reflexivity | now rewrite IH]. Qed.

Lemma append_assoc s1 s2 s3 :
  String.append (String.append s1 s2) s3
  = String.append s1 (String.append s2 s3).
Proof. induction s1 as [|c s1 IH]; simpl; [reflexivity | now rewrite IH]. Qed.

Lemma concat_cons s l :
  String.concat EmptyString (s :: l)
  = String.append s (String.concat EmptyString l).
Proof. destruct l; simpl; [now rewrite append_nil_r | reflexivity]. Qed.

Lemma concat_snoc l s :
  String.concat EmptyString (l ++ [s])
  = String.append (String.concat EmptyString l) s.
Proof.
  induction l as [|x l IH].
  - reflexivity.
  - change ((x :: l) ++ [s]) with (x :: (l ++ [s])).
    now rewrite !concat_cons, IH, append_assoc.
Qed.

(** [async_send] hands bytes over in the order they are queued. *)
Lemma stream_async_send w : stream (async_send w) = stream w.
Proof.
  destruct (blocked w) eqn:G.
  - now rewrite async_send_blocked.
  - rewrite async_send_started by assumption. unfold stream.
    cbn [trace cache data_queue]. rewrite writes_app.
    change (writes [Write (data_queue (cache w))])
      with [data_queue (cache w)].
    now rewrite append_nil_r, concat_snoc.
Qed.

(** What a call that changed the queue to [q] and then called
    [async_send] has done. *)
Lemma async_send_cases w :
  (trace (async_send w) = trace w
   /\ data_queue (cache (async_send w)) = data_queue (cache w)
   /\ sending_data_handler (cache (async_send w))
      = sending_data_handler (cache w)
   /\ handler_queue (cache (async_send w)) = handler_queue (cache w))
  \/ (trace (async_send w) = trace w ++ [Write (data_queue (cache w))]
      /\ data_queue (cache (async_send w)) = EmptyString
      /\ sending_data_handler (cache (async_send w))
         = sending_data_handler (cache w) ++ handler_queue (cache w)
      /\ handler_queue (cache (async_send w)) = []).
Proof.
  destruct (blocked w) eqn:G.
  - left. now rewrite async_send_blocked.
  - right. now rewrite async_send_started.
Qed.

(** C5: [insert_data(b)] puts [b] in front of everything queued and
    registers no handler: either the queue is now [b] followed by its
    former content, or exactly these bytes were handed to the writer in
    one write; in the stream of bytes the transport sees, [b] comes after
    what was already handed to the writer and before everything that was
    queued.  [push_data] puts its bytes behind everything queued and its
    handler behind every handler. *)
Theorem insert_goes_first :
  (forall w b,
      let w' := insert_data b w in
      let q := String.append b (data_queue (cache w)) in
      ((trace w' = trace w /\ data_queue (cache w') = q)
       \/ (trace w' = trace w ++ [Write q]
           /\ data_queue (cache w') = EmptyString))
      /\ sending_data_handler (cache w') ++ handler_queue (cache w')
         = sending_data_handler (cache w) ++ handler_queue (cache w)
      /\ stream w'
         = String.append (String.concat EmptyString (writes (trace w))) q)
  /\ (forall w d h,
         let w' := push_data d h w in
         let q := String.append (data_queue (cache w)) d in
         ((trace w' = trace w ++ [Registered (name h)]
           /\ data_queue (cache w') = q)
          \/ (trace w' = trace w ++ [Registered (name h); Write q]
              /\ data_queue (cache w') = EmptyString))
         /\ sending_data_handler (cache w') ++ handler_queue (cache w')
            = sending_data_handler (cache w) ++ handler_queue (cache w) ++ [h]
         /\ stream w' = String.append (stream w) d).
Proof.
  split.
  - intros w b w' q. subst w' q. unfold insert_data. cbv zeta.
    match goal with
    | |- context [async_send ?x] => set (w1 := x)
    end.
    split; [|split].
    + destruct (async_send_cases w1) as [(T & Q & _) | (T & Q & _)];
        [left | right]; rewrite T, Q; now subst w1.
    + destruct (async_send_cases w1) as [(_ & _ & S & H) | (_ & _ & S & H)];
        rewrite S, H; subst w1; simpl; [reflexivity | apply app_nil_r].
    + rewrite stream_async_send. now subst w1.
  - intros w d h w' q. subst w' q. unfold push_data. cbv zeta.
    match goal with
    | |- context [async_send ?x] => set (w1 := x)
    end.
    split; [|split].
    + destruct (async_send_cases w1) as [(T & Q & _) | (T & Q & _)];
        [left | right]; rewrite T, Q; subst w1; simpl; split;
        try reflexivity.
      now rewrite <- app_assoc.
    + destruct (async_send_cases w1) as [(_ & _ & S & H) | (_ & _ & S & H)];
        rewrite S, H; subst w1; simpl; [reflexivity | now rewrite app_nil_r].
    + rewrite stream_async_send. subst w1. unfold stream. simpl.
      rewrite writes_app. simpl. now rewrite app_nil_r, append_assoc.
Qed.

(** The flag is clear while the handlers fire.  With two handlers in
    flight, the first of which calls [insert_data] and the second makes no
    call, nothing queued and [is_connected()] true, the bytes inserted are
    handed to the writer before the second handler fires. *)
Lemma insert_from_handler_is_written_at_once w n n1 c s n2 :
  outstanding w = S n ->
  sending_data_handler (cache w)
  = [Handler n1 [InsertData (String c s)]; Handler n2 []] ->
  handler_queue (cache w) = [] ->
  data_queue (cache w) = EmptyString ->
  is_connected (cache w) (link_up w) = true ->
  option_map trace (complete success w)
  = Some (trace w ++ [Done success; Fired n1 success; Write (String c s);
                      Fired n2 success]).
Proof.
  destruct w as [[hq dq sb sh fl ic] up o t]. simpl.
  intros -> -> -> -> C.
  assert (E1 : forall t',
             call (Handler n1 [InsertData (String c s)]) success
               {| cache :=
                    {| handler_queue := []; data_queue := EmptyString;
                       sending_data_buff := sb;
                       sending_data_handler :=
                         [Handler n1 [InsertData (String c s)]; Handler n2 []];
                       is_async_sending := false; is_connected := ic |};
                  link_up := up; outstanding := n; trace := t' |}
             = {| cache :=
                    {| handler_queue := []; data_queue := EmptyString;
                       sending_data_buff := String c s;
                       sending_data_handler :=
                         [Handler n1 [InsertData (String c s)]; Handler n2 []];
                       is_async_sending := true; is_connected := ic |};
                  link_up := up; outstanding := S n;
                  trace := (t' ++ [Fired n1 success]) ++ [Write (String c s)] |}).
  { intros t'. unfold call, exec_all. simpl.
    unfold insert_data, async_send. simpl.
    rewrite append_nil_r, C. reflexivity. }
  unfold complete, on_sent, on_sent_fuel, enough, clear_flag, with_cache.
  cbn [outstanding cache link_up trace handler_queue data_queue
       sending_data_buff sending_data_handler is_connected is_error].
  change (weights [Handler n1 [InsertData (String c s)]; Handler n2 []]
          + weights []) with 2.
  cbn [fire_from nth_error cache sending_data_handler].
  rewrite E1.
  cbn [fire_from nth_error cache sending_data_handler].
  unfold call, exec_all, observe.
  cbn [body name fold_left cache sending_data_handler fire_from nth_error
       link_up outstanding trace].
  unfold clear_sending, with_cache, async_send.
  cbn [cache data_queue empty orb option_map trace].
  now rewrite <- !app_assoc.
Qed.

(** *** Further properties of the write cache *)

Lemma writes_fires ec l : writes (fires ec l) = [].
Proof. induction l as [|h l IH]; simpl; [reflexivity | exact IH]. Qed.

(** The lambda, when the handlers in flight make no call. *)
Lemma complete_success_plain w n :
  outstanding w = S n ->
  Forall plain (sending_data_handler (cache w)) ->
  complete success w
  = Some (async_send
            {| cache :=
                 {| handler_queue := handler_queue (cache w);
                    data_queue := data_queue (cache w);
                    sending_data_buff := sending_data_buff (cache w);
                    sending_data_handler := [];
                    is_async_sending := false;
                    is_connected := is_connected (cache w) |};
               link_up := link_up w;
               outstanding := n;
               trace := trace w
                        ++ Done success
                           :: fires success (sending_data_handler (cache w)) |}).
Proof.
  intros O P. unfold complete. rewrite O.
  unfold on_sent, on_sent_fuel. cbv zeta. simpl is_error. cbv iota.
  rewrite fire_from_plain.
  - unfold clear_sending, with_cache. simpl. now rewrite <- app_assoc.
  - exact P.
  - simpl. unfold enough; simpl.
    pose proof (length_le_weights (sending_data_handler (cache w))). lia.
Qed.

Lemma complete_ends_in_send w w' :
  complete success w = Some w' -> w' = w \/ exists x, w' = async_send x.
Proof.
  unfold complete, on_sent, on_sent_fuel. cbv zeta. simpl is_error. cbv iota.
  destruct (outstanding w).
  - intros E. injection E as <-. now left.
  - match goal with
    | |- match ?f with _ => _ end = _ -> _ => destruct f as [w2|]
    end; [|discriminate].
    intros E. injection E as <-. right. now eexists.
Qed.

Lemma all_plain_async_send w : all_plain w -> all_plain (async_send w).
Proof.
  intros [S Q]. destruct (blocked w) eqn:G.
  - now rewrite async_send_blocked.
  - rewrite async_send_started by assumption. split; simpl.
    + apply Forall_app. now split.
    + constructor.
Qed.

Lemma stream_push_data d h w :
  stream (push_data d h w) = String.append (stream w) d.
Proof.
  unfold push_data. cbv zeta. rewrite stream_async_send.
  unfold stream. simpl. rewrite writes_app. simpl.
  now rewrite app_nil_r, append_assoc.
Qed.

Lemma bytes_step es :
  forall w,
    all_plain w -> Forall plain_push es ->
    exists w',
      run es w = Some w'
      /\ all_plain w'
      /\ stream w'
         = fold_left
             (fun s e => match e with
                         | Call (PushData d _) => String.append s d
                         | _ => s
                         end) es (stream w).
Proof.
  induction es as [|e es IH]; intros w P F.
  - exists w. split; [reflexivity | split; [exact P | reflexivity]].
  - inversion F as [|e' es' Pe Fes]; subst.
    assert (Step : exists w1,
               step e w = Some w1 /\ all_plain w1
               /\ stream w1
                  = match e with
                    | Call (PushData d _) => String.append (stream w) d
                    | _ => stream w
                    end).
    { destruct e as [[d h| d | | f | up] | ec]; simpl in Pe; simpl step.
      - eexists. split; [reflexivity|]. split.
        + unfold push_data. cbv zeta. apply all_plain_async_send.
          destruct P as [S Q]. split; simpl; [exact S|].
          apply Forall_app. split; [exact Q | now constructor].
        + apply stream_push_data.
      - contradiction.
      - eexists. split; [reflexivity|].
        split; [now apply all_plain_async_send | apply stream_async_send].
      - eexists. split; [reflexivity|]. split; [exact P | reflexivity].
      - eexists. split; [reflexivity|]. split; [exact P | reflexivity].
      - destruct (outstanding w) as [|n] eqn:O.
        + exists w. unfold complete. rewrite O.
          split; [reflexivity | split; [exact P | reflexivity]].
        + destruct (is_error ec) eqn:Ee.
          * rewrite (complete_failed ec w n Ee O).
            eexists. split; [reflexivity|]. split; [exact P|].
            unfold stream. simpl. rewrite writes_app. simpl.
            now rewrite app_nil_r.
          * destruct ec; try discriminate.
            rewrite (complete_success_plain w n O (proj1 P)).
            eexists. split; [reflexivity|]. split.
            -- apply all_plain_async_send. destruct P as [S Q].
               split; simpl; [constructor | exact Q].
            -- rewrite stream_async_send. unfold stream. simpl.
               rewrite writes_app. simpl. rewrite writes_fires.
               now rewrite app_nil_r. }
    destruct Step as (w1 & S1 & P1 & X1).
    destruct (IH w1 P1 Fes) as (w' & R & P' & X').
    exists w'. simpl. rewrite S1. split; [exact R|]. split; [exact P'|].
    rewrite X', X1. now destruct e as [[]|].
Qed.

(** X1: no byte is lost, repeated or moved.  In a run of pushes whose
    handlers make no call, of completions, failed or not, and of changes
    of the link, the bytes handed to the writer followed by the bytes still
    queued are the bytes pushed, in the order of the pushes. *)
Theorem bytes_conserved :
  forall up es,
    Forall plain_push es ->
    match run es (init up) with
    | Some w => stream w = pushed_bytes es
    | None => False
    end.
Proof.
  intros up es F.
  destruct (bytes_step es (init up)) as (w & -> & _ & X).
  - split; constructor.
  - exact F.
  - exact X.
Qed.

Lemma bytes_conserved_witness :
  match run [Call (PushData "ab" (Handler 1 []));
             Call (PushData "cd" (Handler 2 []));
             Complete (failure 1);
             Call (PushData "ef" (Handler 3 []));
             Complete success]
          (init true) with
  | Some w => stream w = "abcdef"%string
  | None => False
  end.
Proof.
  apply (bytes_conserved true
           [Call (PushData "ab" (Handler 1 []));
            Call (PushData "cd" (Handler 2 []));
            Complete (failure 1);
            Call (PushData "ef" (Handler 3 []));
            Complete success]).
  repeat constructor.
Defined.

Lemma bytes_of_from ps :
  forall s,
    fold_left (fun s (p : string * SentHandler) => String.append s (fst p)) ps s
    = String.append s (bytes_of ps).
Proof.
  unfold bytes_of.
  induction ps as [|p ps IH]; intros s; simpl.
  - now rewrite append_nil_r.
  - rewrite IH, (IH (fst p)). now rewrite append_assoc.
Qed.

Lemma bytes_of_cons p ps :
  bytes_of (p :: ps) = String.append (fst p) (bytes_of ps).
Proof. unfold bytes_of at 1. simpl. apply bytes_of_from. Qed.

(** While the guard of [async_send] holds the pushes back, they pile up. *)
Lemma push_all_held ps :
  forall w,
    is_async_sending (cache w) = true
    \/ is_connected (cache w) (link_up w) = false ->
    push_all ps w
    = {| cache :=
           {| handler_queue := handler_queue (cache w) ++ map snd ps;
              data_queue := String.append (data_queue (cache w)) (bytes_of ps);
              sending_data_buff := sending_data_buff (cache w);
              sending_data_handler := sending_data_handler (cache w);
              is_async_sending := is_async_sending (cache w);
              is_connected := is_connected (cache w) |};
         link_up := link_up w;
         outstanding := outstanding w;
         trace := trace w ++ map (fun p => Registered (name (snd p))) ps |}.
Proof.
  induction ps as [|[d h] ps IH]; intros w H.
  - destruct w as [[hq dq sb sh fl ic] up o t]. unfold push_all, bytes_of.
    simpl. now rewrite !app_nil_r, append_nil_r.
  - change (push_all ((d, h) :: ps) w) with (push_all ps (push_data d h w)).
    assert (E : push_data d h w
                = {| cache :=
                       {| handler_queue := handler_queue (cache w) ++ [h];
                          data_queue := String.append (data_queue (cache w)) d;
                          sending_data_buff := sending_data_buff (cache w);
                          sending_data_handler := sending_data_handler (cache w);
                          is_async_sending := is_async_sending (cache w);
                          is_connected := is_connected (cache w) |};
                     link_up := link_up w;
                     outstanding := outstanding w;
                     trace := trace w ++ [Registered (name h)] |}).
    { unfold push_data. cbv zeta. apply async_send_blocked.
      unfold blocked. simpl.
      destruct H as [-> | ->]; simpl; rewrite ?orb_true_r; reflexivity. }
    rewrite E, IH by exact H. simpl.
    now rewrite bytes_of_cons, append_assoc, <- !app_assoc.
Qed.

(** X2: everything pushed while a write is in flight goes out together.
    When the write completes with success, handlers in flight making no
    call, they fire, and one write is started that carries what was queued
    followed by the bytes of all the pushes, in order; the handlers of the
    pushes are now in flight, in order, behind those that were queued. *)
Theorem pushes_coalesce :
  forall w n ps,
    outstanding w = S n ->
    is_async_sending (cache w) = true ->
    Forall plain (sending_data_handler (cache w)) ->
    is_connected (cache w) (link_up w) = true ->
    empty (String.append (data_queue (cache w)) (bytes_of ps)) = false ->
    complete success (push_all ps w)
    = Some
        {| cache :=
             {| handler_queue := [];
                data_queue := EmptyString;
                sending_data_buff :=
                  String.append (data_queue (cache w)) (bytes_of ps);
                sending_data_handler := handler_queue (cache w) ++ map snd ps;
                is_async_sending := true;
                is_connected := is_connected (cache w) |};
           link_up := link_up w;
           outstanding := S n;
           trace :=
             trace w
             ++ map (fun p => Registered (name (snd p))) ps
             ++ Done success
                :: fires success (sending_data_handler (cache w))
             ++ [Write (String.append (data_queue (cache w)) (bytes_of ps))] |}.
Proof.
  intros w n ps O F P C Q.
  rewrite push_all_held by (now left).
  rewrite (complete_success_plain _ n); [|exact O | exact P].
  rewrite async_send_started.
  - simpl. f_equal. f_equal. rewrite <- !app_assoc. reflexivity.
  - unfold blocked. simpl. now rewrite Q, C.
Qed.

Lemma pushes_coalesce_witness :
  option_map trace
    (complete success
       (push_all [("b"%string, Handler 2 []); ("c"%string, Handler 3 [])]
          (push_data "a" (Handler 1 []) (init true))))
  = Some [Registered 1; Write "a"%string; Registered 2; Registered 3;
          Done success; Fired 1 success; Write "bc"%string].
Proof.
  rewrite (pushes_coalesce (push_data "a" (Handler 1 []) (init true)) 0
             [("b"%string, Handler 2 []); ("c"%string, Handler 3 [])]).
  - reflexivity.
  - reflexivity.
  - reflexivity.
  - repeat constructor.
  - reflexivity.
  - reflexivity.
Defined.

(** X3: pushes made while [is_connected()] is false start no write; the
    first [async_send] made once it is true again sends all their bytes,
    behind what was queued, in one write. *)
Theorem held_while_disconnected :
  forall w ps,
    is_async_sending (cache w) = false ->
    is_connected (cache w) (link_up w) = false ->
    is_connected (cache w) true = true ->
    empty (String.append (data_queue (cache w)) (bytes_of ps)) = false ->
    writes (trace (push_all ps w)) = writes (trace w)
    /\ data_queue (cache (push_all ps w))
       = String.append (data_queue (cache w)) (bytes_of ps)
    /\ writes (trace (async_send (set_link true (push_all ps w))))
       = writes (trace w)
         ++ [String.append (data_queue (cache w)) (bytes_of ps)].
Proof.
  intros w ps F D U Q.
  rewrite push_all_held by (now right).
  split; [|split].
  - simpl. rewrite writes_app.
    assert (N : forall l : list (string * SentHandler),
               writes (map (fun p => Registered (name (snd p))) l) = []).
    { induction l; simpl; auto. }
    now rewrite N, app_nil_r.
  - reflexivity.
  - rewrite async_send_started.
    + simpl. rewrite !writes_app.
      assert (N : forall l : list (string * SentHandler),
                 writes (map (fun p => Registered (name (snd p))) l) = []).
      { induction l; simpl; auto. }
      now rewrite N, app_nil_r.
    + unfold blocked. simpl. now rewrite Q, U, F.
Qed.

Lemma held_while_disconnected_witness :
  let w := set_is_connected_func (fun up => up) (init false) in
  let ps := [("a"%string, Handler 1 []); ("b"%string, Handler 2 [])] in
  writes (trace (push_all ps w)) = []
  /\ writes (trace (async_send (set_link true (push_all ps w))))
     = ["ab"%string].
Proof.
  intros w ps.
  destruct (held_while_disconnected w ps) as (A & _ & B);
    try reflexivity.
  split; [exact A | exact B].
Defined.

(** X4: a failed write leaves the queue waiting.  When the write in flight
    fails while bytes are queued and [is_connected()] is true, the lambda
    starts no write: the bytes stay queued with nothing in flight, until
    the next [push_data], [insert_data] or [async_send]. *)
Theorem failure_stalls :
  forall ec w n,
    is_error ec = true ->
    outstanding w = S n ->
    empty (data_queue (cache w)) = false ->
    is_connected (cache w) (link_up w) = true ->
    exists w',
      complete ec w = Some w'
      /\ trace w' = trace w ++ [Done ec]
      /\ data_queue (cache w') = data_queue (cache w)
      /\ is_async_sending (cache w') = false
      /\ blocked w' = false.
Proof.
  intros ec w n E O Q C. rewrite (complete_failed ec w n E O).
  eexists. split; [reflexivity|]. repeat split.
  unfold blocked. simpl. now rewrite Q, C.
Qed.

Lemma failure_stalls_witness :
  exists w',
    complete (failure 32)
      (push_data "b" (Handler 2 []) (push_data "a" (Handler 1 []) (init true)))
    = Some w'
    /\ data_queue (cache w') = "b"%string
    /\ blocked w' = false.
Proof.
  destruct (failure_stalls (failure 32)
              (push_data "b" (Handler 2 [])
                 (push_data "a" (Handler 1 []) (init true))) 0)
    as (w' & E & _ & Q & _ & B); try reflexivity.
  exists w'. split; [exact E | split; [exact Q | exact B]].
Defined.

Lemma drains_step es :
  forall w,
    blocked w = true -> Forall draining es ->
    exists w', run es w = Some w' /\ blocked w' = true.
Proof.
  induction es as [|e es IH]; intros w B F.
  - now exists w.
  - inversion F as [|e' es' De Fes]; subst.
    assert (Step : exists w1, step e w = Some w1 /\ blocked w1 = true).
    { destruct e as [[d h| d | | f | up] | ec]; simpl in De;
        try contradiction; simpl step.
      - eexists. split; [reflexivity | apply blocked_async_send].
      - eexists. split; [reflexivity | apply blocked_async_send].
      - eexists. split; [reflexivity | apply blocked_async_send].
      - destruct ec; try contradiction.
        destruct (complete_total success w) as [w1 E].
        exists w1. split; [exact E|].
        destruct (complete_ends_in_send w w1 E) as [-> | [x ->]];
          [exact B | apply blocked_async_send]. }
    destruct Step as (w1 & S1 & B1).
    destruct (IH w1 B1 Fes) as (w' & R & B').
    exists w'. simpl. now rewrite S1.
Qed.

(** X5: nothing waits without a reason.  In a run of pushes, inserts,
    [async_send] calls and successful completions whose handlers make no
    call on the cache, every call and every completion ends with the queue
    empty, or [is_connected()] false, or a write in flight. *)
Theorem drains_unless_failed :
  forall up es,
    Forall draining es ->
    Forall calls_plain es ->
    match run es (init up) with
    | Some w => blocked w = true
    | None => False
    end.
Proof.
  intros up es F _.
  destruct (drains_step es (init up)) as (w & -> & B); auto.
Qed.

Lemma drains_unless_failed_witness :
  match run [Call (PushData "a" (Handler 1 []));
             Call (InsertData "b");
             Call (PushData "c" (Handler 2 []));
             Complete success;
             Complete success]
          (init true) with
  | Some w => blocked w = true
  | None => False
  end.
Proof.
  apply (drains_unless_failed true
           [Call (PushData "a" (Handler 1 []));
            Call (InsertData "b");
            Call (PushData "c" (Handler 2 []));
            Complete success;
            Complete success]);
    repeat constructor.
Defined.

(** *** Handlers fire after their write *)

Lemma ledger_snoc t o : ledger (t ++ [o]) = book (ledger t) o.
Proof. unfold ledger. now rewrite fold_left_app. Qed.

Lemma ledger_app t u : ledger (t ++ u) = fold_left book u (ledger t).
Proof. unfold ledger. now rewrite fold_left_app. Qed.

Lemma book_fires ec l :
  forall u f r,
    fold_left book (fires ec l)
      (Some {| unsent := u; flying := f; due := names l ++ r |})
    = Some {| unsent := u; flying := f; due := r |}.
Proof.
  induction l as [|h l IH]; intros u f r; simpl; [reflexivity|].
  rewrite Nat.eqb_refl. apply IH.
Qed.

Lemma booked_async_send w : booked w -> booked (async_send w).
Proof.
  unfold booked. intros B. destruct (blocked w) eqn:G.
  - now rewrite async_send_blocked.
  - rewrite async_send_started by assumption. simpl.
    rewrite ledger_snoc, B. simpl. unfold names. now rewrite map_app.
Qed.

Lemma booked_exec a w :
  match a with PushData _ h => plain h | _ => True end ->
  booked w -> booked (exec a w).
Proof.
  intros _ B. destruct a as [d h| d | | f | up]; simpl.
  - unfold push_data. cbv zeta. apply booked_async_send.
    unfold booked in *. simpl. rewrite ledger_snoc, B. simpl.
    unfold names. now rewrite map_app.
  - unfold insert_data. cbv zeta. now apply booked_async_send.
  - now apply booked_async_send.
  - exact B.
  - exact B.
Qed.

Lemma booked_complete w w' :
  Forall plain (sending_data_handler (cache w)) ->
  booked w -> complete success w = Some w' -> booked w'.
Proof.
  intros P B E. destruct (outstanding w) as [|n] eqn:O.
  - unfold complete in E. rewrite O in E. now injection E as <-.
  - rewrite (complete_success_plain w n O P) in E. injection E as <-.
    apply booked_async_send. unfold booked in *. simpl.
    change (trace w ++ Done success :: fires success (sending_data_handler (cache w)))
      with (trace w ++ [Done success]
              ++ fires success (sending_data_handler (cache w))).
    rewrite app_assoc, ledger_app, ledger_snoc, B. simpl.
    rewrite <- (app_nil_r (names (sending_data_handler (cache w)))).
    apply book_fires.
Qed.

Lemma all_plain_exec a w :
  match a with PushData _ h => plain h | _ => True end ->
  all_plain w -> all_plain (exec a w).
Proof.
  intros Pa P. destruct a as [d h| d | | f | up]; simpl.
  - unfold push_data. cbv zeta. apply all_plain_async_send.
    destruct P as [S Q]. split; simpl; [exact S|].
    apply Forall_app. split; [exact Q | now constructor].
  - unfold insert_data. cbv zeta. now apply all_plain_async_send.
  - now apply all_plain_async_send.
  - exact P.
  - exact P.
Qed.

Lemma tame_step es :
  forall w,
    all_plain w -> booked w -> Forall tame es ->
    exists w', run es w = Some w' /\ all_plain w' /\ booked w'.
Proof.
  induction es as [|e es IH]; intros w P B F.
  - now exists w.
  - inversion F as [|e' es' Te Fes]; subst.
    assert (Step : exists w1,
               step e w = Some w1 /\ all_plain w1 /\ booked w1).
    { destruct e as [a | ec]; simpl in Te.
      - exists (exec a w). split; [reflexivity|].
        assert (Ta : match a with PushData _ h => plain h | _ => True end)
          by now destruct a.
        split; [now apply all_plain_exec | now apply booked_exec].
      - subst ec. destruct (complete_total success w) as [w1 E].
        exists w1. split; [exact E|]. split.
        + destruct (outstanding w) as [|n] eqn:O.
          * unfold complete in E. rewrite O in E. now injection E as <-.
          * rewrite (complete_success_plain w n O (proj1 P)) in E.
            injection E as <-. apply all_plain_async_send.
            destruct P as [S Q]. split; simpl; [constructor | exact Q].
        + exact (booked_complete w w1 (proj1 P) B E). }
    destruct Step as (w1 & S1 & P1 & B1).
    destruct (IH w1 P1 B1 Fes) as (w' & R & P' & B').
    exists w'. simpl. now rewrite S1.
Qed.

(** X6: when no handler calls back into the cache and no write fails,
    every handler fires after its write.  In such a run, each handler that
    fires is, at that moment, the oldest handler whose bytes were in a
    write that has completed with success; the handlers still held are
    exactly those whose write has not been started or is in flight. *)
Theorem plain_handlers_fire_after_their_write :
  forall up es,
    Forall tame es ->
    match run es (init up) with
    | Some w =>
        timely (trace w) = true
        /\ ledger (trace w)
           = Some {| unsent := names (handler_queue (cache w));
                     flying := names (sending_data_handler (cache w));
                     due := [] |}
    | None => False
    end.
Proof.
  intros up es F.
  destruct (tame_step es (init up)) as (w & -> & _ & B).
  - split; constructor.
  - reflexivity.
  - exact F.
  - split; [|exact B]. unfold timely. now rewrite B.
Qed.

Lemma plain_handlers_fire_after_their_write_witness :
  match run [Call (PushData "a" (Handler 1 []));
             Call (PushData "b" (Handler 2 []));
             Complete success;
             Complete success]
          (init true) with
  | Some w =>
      timely (trace w) = true
      /\ ledger (trace w)
         = Some {| unsent := names (handler_queue (cache w));
                   flying := names (sending_data_handler (cache w));
                   due := [] |}
  | None => False
  end.
Proof.
  apply (plain_handlers_fire_after_their_write true
           [Call (PushData "a" (Handler 1 []));
            Call (PushData "b" (Handler 2 []));
            Complete success;
            Complete success]).
  repeat constructor.
Defined.

(** The reading is not empty: it rejects the trace of a handler fired
    while its write is in flight, and that of a handler fired after its
    write failed. *)
Lemma timely_rejects :
  timely [Registered 1; Write "a"%string; Done success; Fired 1 success;
          Registered 2; Write "b"%string; Fired 2 success] = false
  /\ timely [Registered 1; Write "a"%string; Done (failure 1);
             Registered 2; Write "b"%string; Done success;
             Fired 1 success; Fired 2 success] = false.
Proof. split; reflexivity. Qed.

End SendDataCacheFacts.

(** ** The read cache *)

Module ReadDataCacheFacts.
Import ReadDataCache.

Lemma read_weight_body h : weight h = S (total_weight (body h)).
Proof.
  destruct h as [n b]. unfold total_weight. simpl. f_equal.
  induction b as [|a b IH]; simpl; [reflexivity | now rewrite IH].
Qed.

Lemma inv_init : inv init.
Proof. split; [reflexivity | discriminate]. Qed.

Lemma inv_not_waiting c t :
  is_waiting c = false -> inv {| cache := c; trace := t |}.
Proof.
  intros E. split; unfold both; simpl; rewrite E;
    [apply andb_false_r | discriminate].
Qed.

Lemma inv_clear_data_queue w : inv w -> inv (clear_data_queue w).
Proof. intros [_ H]. split; [reflexivity | exact H]. Qed.

Lemma waiting_weight_inv w :
  inv w -> is_waiting (cache w) = true ->
  exists h, read_handler (cache w) = Some h /\ waiting_weight w = weight h.
Proof.
  intros [_ H] W. unfold waiting_weight. rewrite W.
  destruct (read_handler (cache w)) as [h|]; [now exists h|].
  now destruct (H W).
Qed.

(** With fuel for the handlers at hand, a list of calls returns; the
    trace grows, the invariant holds, and the handler left waiting was
    among those at hand. *)
Lemma exec_all_total :
  forall fuel l w,
    inv w ->
    total_weight l + waiting_weight w <= fuel ->
    exists w',
      exec_all_with (call_fuel fuel) l w = Some w'
      /\ inv w'
      /\ waiting_weight w' <= total_weight l + waiting_weight w
      /\ exists rest, trace w' = trace w ++ rest.
Proof.
  induction fuel as [fuel IHf] using lt_wf_ind.
  induction l as [|a l IHl]; intros w I B.
  - exists w. simpl. repeat split; try apply I; try lia.
    exists []. now rewrite app_nil_r.
  - unfold total_weight in B. simpl in B. fold (total_weight l) in B.
    assert (Next : forall w1 k pre,
               exec_with (call_fuel fuel) a w = Some w1 ->
               inv w1 ->
               waiting_weight w1 + k = action_weight a + waiting_weight w ->
               trace w1 = trace w ++ pre ->
               exists w',
                 exec_all_with (call_fuel fuel) (a :: l) w = Some w'
                 /\ inv w'
                 /\ waiting_weight w'
                    <= total_weight (a :: l) + waiting_weight w
                 /\ exists rest, trace w' = trace w ++ rest).
    { intros w1 k pre E1 I1 W1 T1.
      destruct (IHl w1 I1) as (w' & E & I' & W' & rest & T); [lia|].
      exists w'. simpl. rewrite E1.
      split; [exact E|]. split; [exact I'|]. split.
      - unfold total_weight. simpl. fold (total_weight l). lia.
      - exists (pre ++ rest). now rewrite T, T1, app_assoc. }
    destruct a as [d|h]; simpl in B; simpl exec_with in Next.
    + (* push_data *)
      unfold push_data_with in Next. cbv zeta in Next.
      destruct (is_waiting (cache w)) eqn:W.
      * destruct (waiting_weight_inv w I W) as (g & G & WG).
        rewrite G in Next. rewrite WG in B.
        pose proof (read_weight_body g) as Wg.
        destruct fuel as [|fuel']; [lia|].
        simpl call_fuel in Next.
        match type of Next with
        | context [exec_all_with _ _ ?x] => set (w0 := x) in *
        end.
        destruct (IHf fuel' (Nat.lt_succ_diag_r fuel') (body g) w0)
          as (w1 & E1 & I1 & W1 & rest & T1).
        { now apply inv_not_waiting. }
        { unfold waiting_weight. simpl. lia. }
        apply (Next w1 (S (total_weight (body g)) - waiting_weight w1)
                 (Delivered (name g) d :: rest)).
        -- exact E1.
        -- exact I1.
        -- assert (W0 : waiting_weight w0 = 0) by reflexivity.
           simpl action_weight. lia.
        -- rewrite T1. subst w0. simpl. now rewrite <- app_assoc.
      * eapply Next with (k := 0) (pre := []).
        -- reflexivity.
        -- now apply inv_not_waiting.
        -- unfold waiting_weight. simpl. now rewrite W.
        -- simpl. now rewrite app_nil_r.
    + (* async_read *)
      unfold async_read_with in Next. cbv zeta in Next.
      pose proof (read_weight_body h) as Wh.
      destruct (empty (data_queue (cache w))) eqn:Q.
      * eapply Next with (k := waiting_weight w) (pre := []).
        -- reflexivity.
        -- split; [|discriminate]. unfold both. simpl. now rewrite Q.
        -- unfold waiting_weight at 1. simpl. lia.
        -- simpl. now rewrite app_nil_r.
      * destruct fuel as [|fuel']; [lia|].
        simpl call_fuel in Next.
        match type of Next with
        | context [exec_all_with _ _ ?x] => set (w0 := x) in *
        end.
        assert (I0 : inv w0) by (destruct I; now split).
        assert (W0 : waiting_weight w0 = waiting_weight w) by reflexivity.
        destruct (IHf fuel' (Nat.lt_succ_diag_r fuel') (body h) w0 I0)
          as (w1 & E1 & I1 & W1 & rest & T1); [lia|].
        rewrite E1 in Next.
        eapply Next with
          (k := S (total_weight (body h)) + waiting_weight w
                - waiting_weight w1)
          (pre := Delivered (name h) (data_queue (cache w)) :: rest).
        -- reflexivity.
        -- now apply inv_clear_data_queue.
        -- change (waiting_weight (clear_data_queue w1))
             with (waiting_weight w1).
           change (action_weight (AsyncRead h)) with (weight h). lia.
        -- simpl. rewrite T1. subst w0. simpl. now rewrite <- app_assoc.
Qed.


Lemma exec_all_one call a w :
  exec_all_with call [a] w = exec_with call a w.
Proof. simpl. now destruct (exec_with call a w). Qed.

Lemma exec_total a w :
  inv w ->
  exists w', exec a w = Some w' /\ inv w'
             /\ exists rest, trace w' = trace w ++ rest.
Proof.
  intros I.
  assert (X : exists fuel,
             exec a w = exec_all_with (call_fuel fuel) [a] w
             /\ total_weight [a] + waiting_weight w <= fuel).
  { destruct a as [d|h].
    - exists (waiting_weight w). split; [now rewrite exec_all_one|].
      unfold total_weight. simpl. lia.
    - exists (weight h + waiting_weight w).
      split; [now rewrite exec_all_one|].
      unfold total_weight. simpl map. simpl list_sum.
      change (action_weight (AsyncRead h)) with (weight h). lia. }
  destruct X as (fuel & -> & B).
  destruct (exec_all_total fuel [a] w I B) as (w' & E & I' & _ & T).
  now exists w'.
Qed.

Lemma read_run_total l :
  forall w, inv w -> exists w', run l w = Some w' /\ inv w'.
Proof.
  induction l as [|a l IH]; intros w I; simpl.
  - now exists w.
  - destruct (exec_total a w I) as (w1 & -> & I1 & _). now apply IH.
Qed.

(** The first thing a call of [h] with [data] does is recorded as such. *)
Lemma call_fuel_trace fuel h data w :
  inv w ->
  total_weight (body h) + waiting_weight w <= fuel ->
  exists w' rest,
    call_fuel (S fuel) h data w = Some w'
    /\ inv w'
    /\ trace w' = trace w ++ Delivered (name h) data :: rest
    /\ (body h = [] ->
        w' = {| cache := cache w;
                trace := trace w ++ [Delivered (name h) data] |}).
Proof.
  intros I B. simpl.
  match goal with
  | |- context [exec_all_with _ _ ?x] => set (w0 := x)
  end.
  destruct (exec_all_total fuel (body h) w0) as (w1 & E & I1 & _ & rest & T).
  { destruct I. now split. }
  { exact B. }
  exists w1, rest. split; [exact E|]. split; [exact I1|]. split.
  - rewrite T. subst w0. simpl. now rewrite <- app_assoc.
  - intros P. rewrite P in E. simpl in E. now injection E as <-.
Qed.

(** C6, for handlers that make no call on the cache: bytes are never
    buffered while a consumer waits.  [push_data] hands its bytes to the
    waiting handler at once, the waiting state cleared, and appends them
    to the buffer when nobody waits; [async_read] hands the whole buffer
    to its handler at once and clears it when there is one, and records
    the handler as the waiting consumer when there is none.  Pushing "x"
    and then reading with [h], or reading with [h] and then pushing "x",
    delivers "x" to [h]. *)
Theorem read_cache_contract :
  (forall l,
      Forall plain_action l ->
      match run l init with
      | Some w => both w = false
      | None => False
      end)
  /\ (forall w data h,
         is_waiting (cache w) = true ->
         read_handler (cache w) = Some h ->
         body h = [] ->
         push_data data w
         = Some {| cache := {| data_queue := data_queue (cache w);
                               read_handler := Some h;
                               is_waiting := false |};
                   trace := trace w ++ [Delivered (name h) data] |})
  /\ (forall w data,
         is_waiting (cache w) = false ->
         push_data data w
         = Some {| cache :=
                     {| data_queue := String.append (data_queue (cache w)) data;
                        read_handler := read_handler (cache w);
                        is_waiting := false |};
                   trace := trace w |})
  /\ (forall w h,
         empty (data_queue (cache w)) = false ->
         body h = [] ->
         async_read h w
         = Some {| cache := {| data_queue := EmptyString;
                               read_handler := read_handler (cache w);
                               is_waiting := is_waiting (cache w) |};
                   trace := trace w
                            ++ [Delivered (name h) (data_queue (cache w))] |})
  /\ (forall w h,
         empty (data_queue (cache w)) = true ->
         async_read h w
         = Some {| cache := {| data_queue := data_queue (cache w);
                               read_handler := Some h;
                               is_waiting := true |};
                   trace := trace w |})
  /\ (forall h,
         body h = [] ->
         run [PushData "x"; AsyncRead h] init
         = Some {| cache := {| data_queue := EmptyString;
                               read_handler := None;
                               is_waiting := false |};
                   trace := [Delivered (name h) "x"] |})
  /\ (forall h,
         body h = [] ->
         run [AsyncRead h; PushData "x"] init
         = Some {| cache := {| data_queue := EmptyString;
                               read_handler := Some h;
                               is_waiting := false |};
                   trace := [Delivered (name h) "x"] |}).
Proof.
  split; [|split; [|split; [|split; [|split; [|split]]]]].
  - intros l _. destruct (read_run_total l init inv_init) as (w & -> & B & _).
    exact B.
  - intros w d [n b] W H B. simpl in B. subst b.
    unfold push_data, push_data_with, waiting_weight. cbv zeta.
    rewrite W, H. reflexivity.
  - intros w d W. unfold push_data, push_data_with. cbv zeta.
    now rewrite W.
  - intros w [n b] Q B. simpl in B. subst b.
    unfold async_read, async_read_with. cbv zeta. rewrite Q. reflexivity.
  - intros w h Q. unfold async_read, async_read_with. cbv zeta.
    now rewrite Q.
  - intros [n b] B. simpl in B. subst b. reflexivity.
  - intros [n b] B. simpl in B. subst b. reflexivity.
Qed.

(** The cases of C6 on a cache where handler 7 waits, on a fresh cache
    and on a cache that holds "x", and a run of pushes and reads. *)
Lemma read_cache_contract_witness :
  push_data "y"
    {| cache := {| data_queue := EmptyString;
                   read_handler := Some (Handler 7 []);
                   is_waiting := true |};
       trace := [] |}
  = Some {| cache := {| data_queue := EmptyString;
                        read_handler := Some (Handler 7 []);
                        is_waiting := false |};
            trace := [Delivered 7 "y"%string] |}
  /\ push_data "x" init
     = Some {| cache := {| data_queue := "x"; read_handler := None;
                           is_waiting := false |};
               trace := [] |}
  /\ async_read (Handler 7 [])
       {| cache := {| data_queue := "x"; read_handler := None;
                      is_waiting := false |};
          trace := [] |}
     = Some {| cache := {| data_queue := EmptyString; read_handler := None;
                           is_waiting := false |};
               trace := [Delivered 7 "x"%string] |}
  /\ async_read (Handler 7 []) init
     = Some {| cache := {| data_queue := EmptyString;
                           read_handler := Some (Handler 7 []);
                           is_waiting := true |};
               trace := [] |}
  /\ match run [PushData "a"; AsyncRead (Handler 1 []);
                AsyncRead (Handler 2 []); PushData "b"; PushData "c"] init with
     | Some w => both w = false
     | None => False
     end
  /\ run [PushData "x"; AsyncRead (Handler 7 [])] init
     = Some {| cache := {| data_queue := EmptyString; read_handler := None;
                           is_waiting := false |};
               trace := [Delivered 7 "x"%string] |}
  /\ run [AsyncRead (Handler 7 []); PushData "x"] init
     = Some {| cache := {| data_queue := EmptyString;
                           read_handler := Some (Handler 7 []);
                           is_waiting := false |};
               trace := [Delivered 7 "x"%string] |}.
Proof.
  destruct read_cache_contract as (I & A & B & C & D & E & F).
  split; [|split; [|split; [|split; [|split; [|split]]]]].
  - apply (A {| cache := {| data_queue := EmptyString;
                            read_handler := Some (Handler 7 []);
                            is_waiting := true |};
                trace := [] |} "y"%string (Handler 7 [])); reflexivity.
  - apply (B init "x"%string). reflexivity.
  - apply (C {| cache := {| data_queue := "x"; read_handler := None;
                            is_waiting := false |};
                trace := [] |} (Handler 7 [])); reflexivity.
  - apply (D init (Handler 7 [])). reflexivity.
  - apply (I [PushData "a"; AsyncRead (Handler 1 []);
              AsyncRead (Handler 2 []); PushData "b"; PushData "c"]).
    repeat constructor.
  - apply (E (Handler 7 [])). reflexivity.
  - apply (F (Handler 7 [])). reflexivity.
Defined.

(** *** Further properties of the read cache *)

Lemma read_append_nil_r s : String.append s EmptyString = s.
Proof. induction s as [|c s IH]; simpl; [reflexivity | now rewrite IH]. Qed.

Lemma read_append_assoc s1 s2 s3 :
  String.append (String.append s1 s2) s3
  = String.append s1 (String.append s2 s3).
Proof. induction s1 as [|c s1 IH]; simpl; [reflexivity | now rewrite IH]. Qed.

Lemma delivered_snoc t n d :
  delivered (t ++ [Delivered n d]) = String.append (delivered t) d.
Proof. unfold delivered. now rewrite fold_left_app. Qed.

Lemma empty_true s : empty s = true -> s = EmptyString.
Proof. now destruct s. Qed.

Lemma plain_step a w :
  plain_action a -> inv w -> waiter_plain w ->
  exists w',
    exec a w = Some w' /\ inv w' /\ waiter_plain w'
    /\ String.append (delivered (trace w')) (data_queue (cache w'))
       = match a with
         | PushData d =>
             String.append
               (String.append (delivered (trace w)) (data_queue (cache w))) d
         | AsyncRead _ =>
             String.append (delivered (trace w)) (data_queue (cache w))
         end.
Proof.
  intros Pa [B H] Wp. destruct a as [d|h]; simpl exec.
  - unfold push_data, push_data_with, waiting_weight. cbv zeta.
    destruct (is_waiting (cache w)) eqn:W.
    + destruct (Wp W) as [n R]. rewrite R. simpl.
      eexists. split; [reflexivity|]. split; [now apply inv_not_waiting|].
      split; [discriminate|]. simpl.
      unfold both in B. rewrite W, andb_true_r in B.
      apply negb_false_iff, empty_true in B. rewrite B.
      now rewrite delivered_snoc, !read_append_nil_r.
    + eexists. split; [reflexivity|]. split; [now apply inv_not_waiting|].
      split; [discriminate|]. simpl. now rewrite read_append_assoc.
  - simpl in Pa. destruct h as [n b]. unfold plain in Pa. simpl in Pa.
    subst b. unfold async_read, async_read_with. cbv zeta.
    destruct (empty (data_queue (cache w))) eqn:Q.
    + eexists. split; [reflexivity|]. split; [|split].
      * split; [|discriminate]. unfold both. simpl. now rewrite Q.
      * intros _. now exists n.
      * reflexivity.
    + simpl. eexists. split; [reflexivity|]. split; [|split].
      * split; [reflexivity | exact H].
      * exact Wp.
      * simpl. now rewrite delivered_snoc, read_append_nil_r.
Qed.

Lemma plain_run l :
  forall w,
    Forall plain_action l -> inv w -> waiter_plain w ->
    exists w',
      run l w = Some w' /\ inv w'
      /\ String.append (delivered (trace w')) (data_queue (cache w'))
         = fold_left (fun s a => match a with
                                 | PushData d => String.append s d
                                 | AsyncRead _ => s
                                 end) l
             (String.append (delivered (trace w)) (data_queue (cache w))).
Proof.
  induction l as [|a l IH]; intros w F I Wp.
  - now exists w.
  - inversion F as [|a' l' Pa Fl]; subst.
    destruct (plain_step a w Pa I Wp) as (w1 & E1 & I1 & W1 & X1).
    destruct (IH w1 Fl I1 W1) as (w' & R & I' & X').
    exists w'. simpl. rewrite E1. split; [exact R|]. split; [exact I'|].
    rewrite X', X1. now destruct a.
Qed.

(** X7: the read cache loses nothing and repeats nothing.  In a run of
    pushes and reads whose handlers make no call, the bytes handed to the
    handlers followed by the bytes still buffered are the bytes pushed, in
    order. *)
Theorem read_bytes_conserved :
  forall l,
    Forall plain_action l ->
    match run l init with
    | Some w =>
        String.append (delivered (trace w)) (data_queue (cache w)) = pushed l
    | None => False
    end.
Proof.
  intros l F.
  destruct (plain_run l init F inv_init) as (w & -> & _ & X).
  - discriminate.
  - exact X.
Qed.

Lemma read_bytes_conserved_witness :
  match run [PushData "ab"; PushData "cd"; AsyncRead (Handler 1 []);
             AsyncRead (Handler 2 []); PushData "ef"; PushData "gh"] init with
  | Some w =>
      String.append (delivered (trace w)) (data_queue (cache w))
      = "abcdefgh"%string
  | None => False
  end.
Proof.
  apply (read_bytes_conserved
           [PushData "ab"; PushData "cd"; AsyncRead (Handler 1 []);
            AsyncRead (Handler 2 []); PushData "ef"; PushData "gh"]).
  repeat constructor.
Defined.

(** X8: bytes pushed by a handler while [async_read] is handing it the
    buffer are lost.  The handler is called before the buffer is cleared:
    its push is appended to the buffer, and the buffer is then cleared
    with it; the bytes are handed to nobody. *)
Theorem push_inside_read_is_lost :
  forall w n d,
    empty (data_queue (cache w)) = false ->
    is_waiting (cache w) = false ->
    async_read (Handler n [PushData d]) w
    = Some {| cache := {| data_queue := EmptyString;
                          read_handler := read_handler (cache w);
                          is_waiting := false |};
              trace := trace w ++ [Delivered n (data_queue (cache w))] |}.
Proof.
  intros w n d Q W.
  unfold async_read, async_read_with, waiting_weight. cbv zeta.
  rewrite Q, W. simpl. unfold push_data_with. simpl. now rewrite W.
Qed.

Lemma push_inside_read_is_lost_witness :
  async_read (Handler 1 [PushData "y"])
    {| cache := {| data_queue := "x"; read_handler := None;
                   is_waiting := false |};
       trace := [] |}
  = Some {| cache := {| data_queue := EmptyString; read_handler := None;
                        is_waiting := false |};
            trace := [Delivered 1 "x"%string] |}.
Proof.
  apply (push_inside_read_is_lost
           {| cache := {| data_queue := "x"; read_handler := None;
                          is_waiting := false |};
              trace := [] |} 1 "y"%string); reflexivity.
Defined.

(** X9: a read made by a handler while [async_read] is handing it the
    buffer is handed the same bytes again: the buffer is cleared only
    after the outer handler returns. *)
Theorem read_inside_read_repeats :
  forall w n m,
    empty (data_queue (cache w)) = false ->
    async_read (Handler n [AsyncRead (Handler m [])]) w
    = Some {| cache := {| data_queue := EmptyString;
                          read_handler := read_handler (cache w);
                          is_waiting := is_waiting (cache w) |};
              trace := trace w ++ [Delivered n (data_queue (cache w));
                                   Delivered m (data_queue (cache w))] |}.
Proof.
  intros w n m Q.
  unfold async_read, async_read_with. cbv zeta.
  rewrite Q. simpl. unfold async_read_with. simpl. rewrite Q. simpl.
  now rewrite <- app_assoc.
Qed.

Lemma read_inside_read_repeats_witness :
  async_read (Handler 1 [AsyncRead (Handler 2 [])])
    {| cache := {| data_queue := "x"; read_handler := None;
                   is_waiting := false |};
       trace := [] |}
  = Some {| cache := {| data_queue := EmptyString; read_handler := None;
                        is_waiting := false |};
            trace := [Delivered 1 "x"%string; Delivered 2 "x"%string] |}.
Proof.
  apply (read_inside_read_repeats
           {| cache := {| data_queue := "x"; read_handler := None;
                          is_waiting := false |};
              trace := [] |} 1 2).
  reflexivity.
Defined.

(** X10: only one consumer can wait.  A second [async_read] on an empty
    buffer replaces the handler of the first; the next push is handed to
    the second handler and the first is never called. *)
Theorem last_reader_wins :
  forall w h1 n2 d,
    empty (data_queue (cache w)) = true ->
    run [AsyncRead h1; AsyncRead (Handler n2 []); PushData d] w
    = Some {| cache := {| data_queue := data_queue (cache w);
                          read_handler := Some (Handler n2 []);
                          is_waiting := false |};
              trace := trace w ++ [Delivered n2 d] |}.
Proof.
  intros w h1 n2 d Q. simpl run.
  unfold async_read at 1. unfold async_read_with. cbv zeta. rewrite Q.
  unfold async_read, async_read_with. cbv zeta. simpl. rewrite Q. reflexivity.
Qed.

Lemma last_reader_wins_witness :
  option_map trace
    (run [AsyncRead (Handler 1 [PushData "never"]);
          AsyncRead (Handler 2 []); PushData "x"] init)
  = Some [Delivered 2 "x"%string].
Proof.
  rewrite (last_reader_wins init (Handler 1 [PushData "never"]) 2 "x"%string);
    reflexivity.
Defined.

End ReadDataCacheFacts.

(** ** The connector *)

Module ConnectorFacts.
Import Connector.

Section WithArguments.

Variable message : error_code -> string.
Variable TCP_FASTOPEN_CONNECT : bool.
Variables addr port in_endpoint : string.
Variable config : TcpConfig.
Variable socket : Answers.

Let resolve_handler :=
  resolve_handler message TCP_FASTOPEN_CONNECT addr port in_endpoint
    config socket.
Let step :=
  step message TCP_FASTOPEN_CONNECT addr port in_endpoint config socket.
Let run :=
  run message TCP_FASTOPEN_CONNECT addr port in_endpoint config socket.

Lemma attempt_run_cons e es a : run (e :: es) a = run es (step e a).
Proof. reflexivity. Qed.

(** Nothing is pending: whatever happens next does nothing. *)
Lemma step_idle e a :
  resolve a = Idle -> timeout_timer a = None -> connect a = Idle ->
  step e a = a.
Proof.
  destruct a as [r t c l]. simpl. intros -> -> ->.
  destruct e; reflexivity.
Qed.

Lemma run_idle es a :
  resolve a = Idle -> timeout_timer a = None -> connect a = Idle ->
  run es a = a.
Proof.
  intros R T C. induction es as [|e es IH]; [reflexivity|].
  now rewrite attempt_run_cons, step_idle.
Qed.

Lemma resolve_handler_failed error results a :
  is_error error = true \/ results = [] ->
  resolve_handler error results a
  = {| resolve := resolve a; timeout_timer := timeout_timer a;
       connect := connect a;
       effects :=
         effects a
         ++ [Log in_endpoint
               ("cannot resolve remote server hostname " +++ addr +++ ":"
                  +++ port +++ " reason: " +++ message error) ERROR;
             Destroy] |}.
Proof.
  intros H. unfold resolve_handler, Connector.resolve_handler.
  replace (is_error error || match results with [] => true | _ => false end)
    with true.
  - unfold emit. simpl. now rewrite <- app_assoc.
  - destruct H as [-> | ->]; [reflexivity | now rewrite orb_true_r].
Qed.

Lemma resolve_handler_first first rest a :
  resolve_handler success (first :: rest) a
  = resolve_handler success [first] a.
Proof. reflexivity. Qed.

Lemma resolve_handler_open_failed first rest a :
  is_error (open_ec socket) = true ->
  resolve_handler success (first :: rest) a
  = {| resolve := resolve a; timeout_timer := timeout_timer a;
       connect := connect a;
       effects :=
         effects a
         ++ [Log in_endpoint
               (addr +++ " is resolved to " +++ address first) ALL;
             Open (protocol_v6 first);
             Destroy] |}.
Proof.
  intros H. unfold resolve_handler, Connector.resolve_handler.
  simpl. rewrite H. unfold emit. simpl. now rewrite <- !app_assoc.
Qed.

(** The socket opens and takes its options: the timer, if any, is
    started, then the connect, to the first address. *)
Lemma resolve_handler_connects first rest a :
  is_error (open_ec socket) = false ->
  options_ok config socket = true ->
  resolve_handler success (first :: rest) a
  = {| resolve := resolve a;
       timeout_timer :=
         if (0 <? connect_time_out config)%Z then Some Pending
         else timeout_timer a;
       connect := Pending;
       effects :=
         effects a
         ++ [Log in_endpoint
               (addr +++ " is resolved to " +++ address first) ALL;
             Open (protocol_v6 first)]
         ++ option_effects TCP_FASTOPEN_CONNECT config
         ++ timer_effects config
         ++ [AsyncConnect first] |}.
Proof.
  intros O K.
  unfold resolve_handler, Connector.resolve_handler, set_options,
    set_option, start_connect, emit_all, emit, option_effects,
    timer_effects, options_ok in *.
  simpl. rewrite O.
  destruct config as [nd ka fo t], socket as [oe ne ke]. simpl in *.
  destruct nd, ka, (is_error ne), (is_error ke),
    (TCP_FASTOPEN_CONNECT && fo), (0 <? t)%Z;
    simpl in *; try discriminate;
    rewrite <- ?app_assoc; reflexivity.
Qed.

(** C7: when the resolver reports an error or no address, the handler
    logs the error, with the host and port it was asked to reach, and
    calls [destroy()]; this is all the attempt ever does: [destroy()]
    once, no [open], no connect, whatever happens later.  When the
    socket cannot be opened, [destroy()] is called, once, and there is
    no connect.  Otherwise one connect is started, to the first address
    of the result; the addresses after it play no part. *)
Theorem resolution_failure_destroys_once :
  (forall error results es,
      is_error error = true \/ results = [] ->
      let l := effects (run (Resolved error results :: es)
                          connect_out_socket) in
      l = [Log in_endpoint
             ("cannot resolve remote server hostname " +++ addr +++ ":"
                +++ port +++ " reason: " +++ message error) ERROR;
           Destroy]
      /\ destroys l = 1 /\ opens l = 0 /\ connects l = [])
  /\ (forall first rest es,
         is_error (open_ec socket) = true ->
         let l := effects (run (Resolved success (first :: rest) :: es)
                             connect_out_socket) in
         l = [Log in_endpoint
                (addr +++ " is resolved to " +++ address first) ALL;
              Open (protocol_v6 first);
              Destroy]
         /\ destroys l = 1 /\ connects l = [])
  /\ (forall first rest,
         is_error (open_ec socket) = false ->
         options_ok config socket = true ->
         let a := run [Resolved success (first :: rest)]
                    connect_out_socket in
         a = run [Resolved success [first]] connect_out_socket
         /\ connect a = Pending
         /\ connects (effects a) = [first]
         /\ opens (effects a) = 1
         /\ destroys (effects a) = 0).
Proof.
  split; [|split].
  - intros error results es H l. subst l.
    rewrite attempt_run_cons. unfold step, Connector.step. simpl resolve.
    cbv iota. fold resolve_handler.
    rewrite resolve_handler_failed by assumption.
    rewrite run_idle by reflexivity. simpl. auto.
  - intros first rest es H l. subst l.
    rewrite attempt_run_cons. unfold step, Connector.step. simpl resolve.
    cbv iota. fold resolve_handler.
    rewrite resolve_handler_open_failed by assumption.
    rewrite run_idle by reflexivity. simpl. auto.
  - intros first rest O K a. subst a.
    split; [reflexivity|].
    unfold run, Connector.run. simpl fold_left.
    fold resolve_handler.
    rewrite resolve_handler_connects by assumption. simpl.
    split; [reflexivity|].
    unfold option_effects, timer_effects.
    destruct (no_delay config), (keep_alive config),
      (TCP_FASTOPEN_CONNECT && fast_open config),
      (0 <? connect_time_out config)%Z; simpl; auto.
Qed.

(** *** The timer *)

Let timeout_handler := timeout_handler addr port in_endpoint.
Let connect_handler := connect_handler message addr port in_endpoint.

Lemma timeout_handler_expired a :
  timeout_handler success a
  = {| resolve := resolve a; timeout_timer := timeout_timer a;
       connect := connect a;
       effects :=
         effects a
         ++ [Log in_endpoint
               ("cannot establish connection to remote server " +++ addr
                  +++ ":" +++ port +++ " reason: timeout") ERROR;
             Destroy] |}.
Proof.
  unfold timeout_handler, Connector.timeout_handler, emit. simpl.
  now rewrite <- app_assoc.
Qed.

Lemma timeout_handler_cancelled error a :
  is_error error = true -> timeout_handler error a = a.
Proof.
  intros E. unfold timeout_handler, Connector.timeout_handler.
  now rewrite E.
Qed.

(** The connect handler cancels the timer before anything else. *)
Lemma connect_handler_succeeded t a :
  timeout_timer a = Some t ->
  connect_handler success a
  = {| resolve := resolve a; timeout_timer := Some (cancel t);
       connect := connect a;
       effects := effects a ++ [TimerCancel; ConnectedHandler] |}.
Proof.
  intros T. unfold connect_handler, Connector.connect_handler, emit.
  rewrite T. simpl. now rewrite <- app_assoc.
Qed.

(** The timer is armed before the connect is started. *)
Lemma timer_before_connect first rest a :
  is_error (open_ec socket) = false ->
  options_ok config socket = true ->
  (0 < connect_time_out config)%Z ->
  let a' := resolve_handler success (first :: rest) a in
  timeout_timer a' = Some Pending
  /\ connect a' = Pending
  /\ exists pre,
      effects a'
      = pre ++ [ExpiresAfter (connect_time_out config); AsyncWait;
                AsyncConnect first].
Proof.
  intros O K T a'. subst a'.
  rewrite resolve_handler_connects by assumption. simpl.
  apply Z.ltb_lt in T. unfold timer_effects. rewrite T.
  split; [reflexivity|]. split; [reflexivity|].
  exists (effects a
          ++ [Log in_endpoint
                (addr +++ " is resolved to " +++ address first) ALL;
              Open (protocol_v6 first)]
          ++ option_effects TCP_FASTOPEN_CONNECT config).
  rewrite <- !app_assoc. reflexivity.
Qed.

(** The wait ends first and its handler runs: timeout, [destroy()]. *)
Lemma timeout_destroys a :
  timeout_timer a = Some Pending ->
  effects (run [TimerExpires; TimerHandlerRuns] a)
  = effects a
    ++ [Log in_endpoint
          ("cannot establish connection to remote server " +++ addr
             +++ ":" +++ port +++ " reason: timeout") ERROR;
        Destroy].
Proof.
  destruct a as [r t c l]. simpl. intros ->.
  unfold run, Connector.run, Connector.step, Connector.timeout_handler,
    emit.
  simpl. now rewrite <- app_assoc.
Qed.

Lemma attempt_step_settled e a :
  settled a -> settled (step e a) /\ effects (step e a) = effects a.
Proof.
  destruct a as [r t c l]. unfold settled. simpl.
  intros (-> & -> & [-> | [-> | ->]]); destruct e; simpl; auto 6.
Qed.

Lemma attempt_run_settled es :
  forall a, settled a -> effects (run es a) = effects a.
Proof.
  induction es as [|e es IH]; intros a S; [reflexivity|].
  rewrite attempt_run_cons. destruct (attempt_step_settled e a S) as [S' <-].
  now apply IH.
Qed.

(** When the connect handler runs while the wait has not ended, the
    wait is cancelled in time: whatever happens later, nothing more is
    done, and [destroy()] in particular is not called. *)
Lemma cancelled_in_time es a :
  resolve a = Idle -> timeout_timer a = Some Pending ->
  connect a = Queued success ->
  effects (run (ConnectHandlerRuns :: es) a)
  = effects a ++ [TimerCancel; ConnectedHandler].
Proof.
  intros R T C. rewrite attempt_run_cons.
  unfold step, Connector.step. rewrite C. fold connect_handler.
  rewrite (connect_handler_succeeded Pending) by assumption.
  rewrite attempt_run_settled; [reflexivity|].
  unfold settled. simpl. auto.
Qed.

End WithArguments.

(** C8, on the run: a timeout of 5 seconds is configured; the connect and
    the wait both end, the connect first, before the event loop calls
    either handler.  The connect handler cancels a wait that has already
    ended, which does nothing, and calls [connected_handler()]; the
    wait's handler is then called with success, logs a timeout and calls
    [destroy()]. *)
Theorem queued_timeout_destroys_after_connect :
  let hostname := "example.org"%string in
  let first := {| address := "192.0.2.1"; protocol_v6 := false |} in
  effects
    (run (fun _ => "error"%string) false hostname "443" "client"
       {| no_delay := false; keep_alive := false; fast_open := false;
          connect_time_out := 5 |}
       {| open_ec := success; no_delay_ec := success;
          keep_alive_ec := success |}
       [Resolved success [first];
        ConnectFinishes success;
        TimerExpires;
        ConnectHandlerRuns;
        TimerHandlerRuns]
       connect_out_socket)
  = [Log "client" "example.org is resolved to 192.0.2.1" ALL;
     Open false;
     ExpiresAfter 5; AsyncWait;
     AsyncConnect first;
     TimerCancel;
     ConnectedHandler;
     Log "client"
       "cannot establish connection to remote server example.org:443 reason: timeout"
       ERROR;
     Destroy].
Proof. reflexivity. Qed.

(** The cases of C7: the resolver finds no address; the socket does not
    open; the socket opens and the first of two addresses is used. *)
Lemma resolution_failure_destroys_once_witness :
  let message := fun _ : error_code => "host not found"%string in
  let config := {| no_delay := true; keep_alive := false;
                   fast_open := false; connect_time_out := 0 |} in
  let good := {| open_ec := success; no_delay_ec := success;
                 keep_alive_ec := success |} in
  let bad := {| open_ec := failure 24; no_delay_ec := success;
                keep_alive_ec := success |} in
  let first := {| address := "192.0.2.1"; protocol_v6 := false |} in
  let second := {| address := "192.0.2.2"; protocol_v6 := false |} in
  destroys
    (effects (run message false "example.org" "443" "client" config good
                [Resolved success []; TimerHandlerRuns; ConnectHandlerRuns]
                connect_out_socket)) = 1
  /\ destroys
       (effects (run message false "example.org" "443" "client" config bad
                   [Resolved success [first; second]; ConnectHandlerRuns]
                   connect_out_socket)) = 1
  /\ connects
       (effects (run message false "example.org" "443" "client" config good
                   [Resolved success [first; second]]
                   connect_out_socket)) = [first].
Proof.
  intros message config good bad first second.
  split; [|split].
  - destruct (resolution_failure_destroys_once message false
                "example.org"%string "443"%string "client"%string
                config good) as (A & _).
    destruct (A success [] [TimerHandlerRuns; ConnectHandlerRuns])
      as (_ & D & _); [right; reflexivity|].
    exact D.
  - destruct (resolution_failure_destroys_once message false
                "example.org"%string "443"%string "client"%string
                config bad) as (_ & B & _).
    destruct (B first [second] [ConnectHandlerRuns]) as (_ & D & _);
      [reflexivity|].
    exact D.
  - destruct (resolution_failure_destroys_once message false
                "example.org"%string "443"%string "client"%string
                config good) as (_ & _ & C).
    destruct (C first [second]) as (_ & _ & X & _);
      [reflexivity | reflexivity|].
    exact X.
Defined.

(** *** Further properties of the connector *)

Lemma destroys_app l m : destroys (l ++ m) = destroys l + destroys m.
Proof. unfold destroys. now rewrite filter_app, length_app. Qed.

Lemma opens_app l m : opens (l ++ m) = opens l + opens m.
Proof. unfold opens. now rewrite filter_app, length_app. Qed.

Lemma connects_app l m : connects (l ++ m) = connects l ++ connects m.
Proof. apply flat_map_app. Qed.

Lemma connected_calls_app l m :
  connected_calls (l ++ m) = connected_calls l + connected_calls m.
Proof. unfold connected_calls. now rewrite filter_app, length_app. Qed.

Ltac count_effects :=
  unfold budget in *; simpl in *;
  rewrite ?destroys_app, ?opens_app, ?connects_app, ?connected_calls_app,
    ?length_app in *;
  unfold destroys, opens, connects, connected_calls in *;
  simpl in *; try lia.

Ltac in_cases :=
  repeat match goal with
         | H : _ \/ _ |- _ => destruct H
         | H : False |- _ => destruct H
         end;
  try discriminate; try assumption.

(** The text of a log line plays no part below. *)
Opaque String.append.

Section Bounds.

Variable message : error_code -> string.
Variable TCP_FASTOPEN_CONNECT : bool.
Variables addr port in_endpoint : string.
Variable config : TcpConfig.
Variable socket : Answers.

Let step :=
  step message TCP_FASTOPEN_CONNECT addr port in_endpoint config socket.
Let run :=
  run message TCP_FASTOPEN_CONNECT addr port in_endpoint config socket.

Lemma budget_resolve_handler error results t c l :
  budget {| resolve := Pending; timeout_timer := t; connect := c;
            effects := l |} ->
  budget (resolve_handler message TCP_FASTOPEN_CONNECT addr port in_endpoint
            config socket error results
            {| resolve := Idle; timeout_timer := t; connect := c;
               effects := l |}).
Proof.
  intros B.
  unfold resolve_handler, set_options, set_option, start_connect, emit_all,
    emit.
  destruct config as [nd ka fo tm], socket as [oe ne ke].
  destruct error, results as [|first rest]; simpl;
    try (count_effects; fail).
  destruct (is_error oe); simpl; [count_effects; fail|].
  destruct nd, ka, (is_error ne), (is_error ke),
    (TCP_FASTOPEN_CONNECT && fo), (0 <? tm)%Z;
    simpl; count_effects.
Qed.

Lemma budget_step e a : budget a -> budget (step e a).
Proof.
  intros B. destruct a as [r t c l].
  destruct e as [error results | | | ec |]; unfold step, Connector.step.
  - simpl resolve. destruct r; try exact B.
    now apply budget_resolve_handler.
  - destruct r, t as [[| |ec']|], c; count_effects.
  - simpl timeout_timer. destruct t as [[| |ec']|]; try exact B.
    unfold timeout_handler, emit.
    destruct (is_error ec'), r, c; count_effects.
  - destruct r, t as [[| |ec']|], c; count_effects.
  - simpl connect. destruct c as [| |ec']; try exact B.
    unfold connect_handler, emit.
    destruct (is_error ec'), r, t as [[| |ec2]|]; count_effects.
Qed.

Lemma budget_run es : forall a, budget a -> budget (run es a).
Proof.
  induction es as [|e es IH]; intros a B; [exact B|].
  apply IH. now apply budget_step.
Qed.

(** X11: one attempt does little.  Whatever the resolver, the socket, the
    timer and the event loop do, and in whatever order, a call of
    [connect_out_socket] opens the socket at most once, starts at most one
    connect, calls [connected_handler()] at most once and calls
    [destroy()] at most twice. *)
Theorem attempt_bounds :
  forall es,
    let l := effects (run es connect_out_socket) in
    opens l <= 1
    /\ List.length (connects l) <= 1
    /\ connected_calls l <= 1
    /\ destroys l <= 2.
Proof.
  intros es l. subst l.
  assert (B : budget connect_out_socket) by (unfold budget; simpl; lia).
  destruct (budget_run es _ B) as (A1 & A2 & A3 & A4). lia.
Qed.

Lemma attempt_run_snoc es e a : run (es ++ [e]) a = step e (run es a).
Proof. unfold run, Connector.run. now rewrite fold_left_app. Qed.

(** The resolve handler calls no [connected_handler()], and starts a
    connect only on a result that has an address. *)
Lemma resolve_handler_connect error results a :
  let a' := resolve_handler message TCP_FASTOPEN_CONNECT addr port
              in_endpoint config socket error results a in
  (In ConnectedHandler (effects a') -> In ConnectedHandler (effects a))
  /\ (connect a' = connect a
      \/ (connect a' = Pending /\ error = success
          /\ exists first rest, results = first :: rest)).
Proof.
  destruct a as [r t c l].
  unfold resolve_handler, set_options, set_option, start_connect, emit_all,
    emit.
  destruct config as [nd ka fo tm], socket as [oe ne ke].
  destruct error, results as [|first rest]; simpl;
    try (split; [rewrite !in_app_iff; simpl; intros H; in_cases
                | now left]).
  destruct (is_error oe); simpl;
    [split; [rewrite !in_app_iff; simpl; intros H; in_cases | now left]|].
  destruct nd, ka, (is_error ne), (is_error ke),
    (TCP_FASTOPEN_CONNECT && fo), (0 <? tm)%Z; simpl;
    (split;
     [rewrite !in_app_iff; simpl; intros H; in_cases
     | first [now left | right; split; [reflexivity|]; split; [reflexivity|];
                         now exists first, rest]]).
Qed.

Lemma justified_step es e a :
  justified es a -> justified (es ++ [e]) (step e a).
Proof.
  intros (J1 & J2 & J3).
  assert (Old : forall x, In x es -> In x (es ++ [e]))
    by (intros x H; apply in_app_iff; now left).
  assert (New : In e (es ++ [e])) by (apply in_app_iff; right; now left).
  assert (Keep : justified (es ++ [e]) a).
  { split; [|split].
    - intros ec H. apply Old. now apply J1.
    - intros H. destruct (J2 H) as (f & r & X). exists f, r. now apply Old.
    - intros H. destruct (J3 H) as (X & f & r & Y).
      split; [now apply Old | exists f, r; now apply Old]. }
  destruct e as [error results | | | ec |]; unfold step, Connector.step.
  - destruct (resolve a) eqn:R; try exact Keep.
    match goal with
    | |- justified _ (Connector.resolve_handler _ _ _ _ _ _ _ _ _ ?x) =>
        destruct (resolve_handler_connect error results x) as [H1 H2]
    end.
    simpl in H1, H2. split; [|split].
    + intros ec H. destruct H2 as [E | (E & _)]; [|congruence].
      rewrite E in H. now apply (proj1 Keep).
    + intros H. destruct H2 as [E | (_ & -> & f & r & ->)].
      * rewrite E in H. now apply (proj1 (proj2 Keep)).
      * exists f, r. exact New.
    + intros H. apply (proj2 (proj2 Keep)). now apply H1.
  - exact Keep.
  - destruct (timeout_timer a) as [[| |ec']|]; try exact Keep.
    unfold timeout_handler, emit. destruct (negb (is_error ec')); simpl;
      [|exact Keep].
    split; [|split]; simpl.
    + apply (proj1 Keep).
    + apply (proj1 (proj2 Keep)).
    + intros H. simpl in H. rewrite !in_app_iff in H. simpl in H.
      apply (proj2 (proj2 Keep)). in_cases.
  - split; [|split]; simpl.
    + intros ec' H. destruct (connect a) eqn:C; simpl in H; try discriminate.
      * injection H as <-. exact New.
      * injection H as <-. apply Old. now apply J1.
    + intros H. apply (proj1 (proj2 Keep)).
      destruct (connect a); simpl in H; congruence.
    + apply (proj2 (proj2 Keep)).
  - destruct (connect a) as [| |ec'] eqn:C; try exact Keep.
    assert (F : In (ConnectFinishes ec') (es ++ [ConnectHandlerRuns]))
      by (apply Old; now apply J1).
    assert (S : exists f r,
               In (Resolved success (f :: r)) (es ++ [ConnectHandlerRuns])).
    { destruct J2 as (f & r & X); [congruence|]. exists f, r. now apply Old. }
    unfold connect_handler, emit.
    destruct (timeout_timer a) as [t|], (is_error ec') eqn:Ee; simpl;
      (split; [discriminate | split; [congruence|]]);
      intros H; simpl in H; rewrite !in_app_iff in H; simpl in H;
      try (apply (proj2 (proj2 Keep)); in_cases; fail);
      destruct ec'; try discriminate; now split.
Qed.

(** X12: [connected_handler()] is called only after the resolver has
    returned an address without error and the connect has finished
    without error. *)
Theorem connected_only_after_success :
  forall es,
    In ConnectedHandler (effects (run es connect_out_socket)) ->
    In (ConnectFinishes success) es
    /\ exists first rest, In (Resolved success (first :: rest)) es.
Proof.
  assert (J : forall es, justified es (run es connect_out_socket)).
  { induction es as [|e es IH] using rev_ind.
    - split; [|split]; simpl; try discriminate; try contradiction.
    - rewrite attempt_run_snoc. now apply justified_step. }
  intros es H. exact (proj2 (proj2 (J es)) H).
Qed.

(** A [set_option] that throws: the handler's remaining statements are
    not run. *)
Lemma set_options_throws a :
  options_ok config socket = false ->
  exists opts ec,
    set_options TCP_FASTOPEN_CONNECT config socket a
    = Thrown {| resolve := resolve a; timeout_timer := timeout_timer a;
                connect := connect a;
                effects := effects a ++ opts ++ [Throw ec] |}
    /\ is_error ec = true
    /\ (opts = [SetNoDelay] \/ opts = [SetKeepAlive]
        \/ opts = [SetNoDelay; SetKeepAlive]).
Proof.
  unfold options_ok, set_options, set_option, emit.
  destruct (no_delay config), (keep_alive config),
    (is_error (no_delay_ec socket)) eqn:En,
    (is_error (keep_alive_ec socket)) eqn:Ek;
    simpl; intros K; try discriminate.
  - exists [SetNoDelay], (no_delay_ec socket).
    rewrite <- !app_assoc. auto.
  - exists [SetNoDelay], (no_delay_ec socket).
    rewrite <- !app_assoc. auto.
  - exists [SetNoDelay; SetKeepAlive], (keep_alive_ec socket).
    rewrite <- !app_assoc. auto.
  - exists [SetNoDelay], (no_delay_ec socket).
    rewrite <- !app_assoc. auto.
  - exists [SetNoDelay], (no_delay_ec socket).
    rewrite <- !app_assoc. auto.
  - exists [SetKeepAlive], (keep_alive_ec socket).
    rewrite <- !app_assoc. auto.
  - exists [SetKeepAlive], (keep_alive_ec socket).
    rewrite <- !app_assoc. auto.
Qed.

(** X13: a [set_option] that throws abandons the attempt.  When the socket
    opens and setting [no_delay] or [keep_alive] fails, the exception
    leaves the handler: no timer is armed, no connect is started,
    [destroy()] is not called, and nothing is left that could call it
    later. *)
Theorem throwing_option_abandons :
  forall first rest es,
    is_error (open_ec socket) = false ->
    options_ok config socket = false ->
    let a := run (Resolved success (first :: rest) :: es)
               connect_out_socket in
    destroys (effects a) = 0
    /\ connects (effects a) = []
    /\ connected_calls (effects a) = 0
    /\ opens (effects a) = 1
    /\ timeout_timer a = None
    /\ connect a = Idle
    /\ exists pre ec, effects a = pre ++ [Throw ec] /\ is_error ec = true.
Proof.
  intros first rest es O K a. subst a.
  change (run (Resolved success (first :: rest) :: es) connect_out_socket)
    with (run es (step (Resolved success (first :: rest)) connect_out_socket)).
  unfold step, Connector.step. simpl resolve. cbv iota.
  unfold resolve_handler. simpl is_error. simpl orb. cbv iota. rewrite O.
  match goal with
  | |- context [set_options _ _ _ ?x] =>
      destruct (set_options_throws x K) as (opts & ec & E & Ee & Ho)
  end.
  rewrite E. unfold run. rewrite run_idle by reflexivity.
  unfold emit, connect_out_socket.
  cbn [effects timeout_timer connect resolve].
  split; [|split; [|split; [|split; [|split; [|split]]]]];
    try reflexivity.
  - rewrite !destroys_app. unfold destroys.
    destruct Ho as [-> | [-> | ->]]; reflexivity.
  - rewrite !connects_app. unfold connects.
    destruct Ho as [-> | [-> | ->]]; reflexivity.
  - rewrite !connected_calls_app. unfold connected_calls.
    destruct Ho as [-> | [-> | ->]]; reflexivity.
  - rewrite !opens_app. unfold opens.
    destruct Ho as [-> | [-> | ->]]; reflexivity.
  - eexists. exists ec. split; [|exact Ee]. now rewrite app_assoc.
Qed.

(** A step of an attempt only adds to what it has done. *)
Lemma attempt_step_appends e a :
  exists fresh, effects (step e a) = effects a ++ fresh.
Proof.
  assert (Same : exists fresh : list Effect, effects a = effects a ++ fresh)
    by (exists []; now rewrite app_nil_r).
  destruct a as [r t c l].
  destruct e as [error results | | | ec |]; unfold step, Connector.step;
    simpl resolve; simpl timeout_timer; simpl connect.
  - destruct r; try exact Same.
    unfold resolve_handler, set_options, set_option, start_connect, emit_all,
      emit.
    destruct config as [nd ka fo tm], socket as [oe ne ke].
    destruct error, results as [|first rest]; simpl;
      try (eexists; rewrite <- ?app_assoc; reflexivity).
    destruct (is_error oe); simpl;
      [eexists; rewrite <- ?app_assoc; reflexivity|].
    destruct nd, ka, (is_error ne), (is_error ke),
      (TCP_FASTOPEN_CONNECT && fo), (0 <? tm)%Z; simpl;
      eexists; rewrite <- ?app_assoc; reflexivity.
  - exact Same.
  - destruct t as [[| |ec']|]; try exact Same.
    unfold timeout_handler, emit. destruct (negb (is_error ec')); simpl;
      [eexists; rewrite <- ?app_assoc; reflexivity | exact Same].
  - exact Same.
  - destruct c as [| |ec']; try exact Same.
    unfold connect_handler, emit.
    destruct t, (is_error ec'); simpl;
      eexists; rewrite <- ?app_assoc; reflexivity.
Qed.

Lemma timer_uses_app l m : timer_uses (l ++ m) = timer_uses l + timer_uses m.
Proof. unfold timer_uses. now rewrite filter_app, length_app. Qed.

Lemma untimed_step e a :
  (connect_time_out config <= 0)%Z -> untimed a -> untimed (step e a).
Proof.
  intros T (U1 & U2 & U3). destruct a as [r t c l]. simpl in U1. subst t.
  apply Z.ltb_ge in T.
  destruct e as [error results | | | ec |]; unfold step, Connector.step;
    simpl resolve; simpl timeout_timer; simpl connect.
  - destruct r; try (now repeat split).
    unfold untimed, resolve_handler, set_options, set_option, start_connect,
      emit_all, emit.
    rewrite T.
    destruct error, results as [|first rest]; simpl;
      try (rewrite ?timer_uses_app, ?destroys_app in *;
           unfold timer_uses, destroys in *; simpl in *;
           (split; [reflexivity|]); split; lia).
    destruct (is_error (open_ec socket)); simpl;
      [rewrite ?timer_uses_app, ?destroys_app in *;
       unfold timer_uses, destroys in *; simpl in *;
       (split; [reflexivity|]); split; lia|].
    destruct (no_delay config), (keep_alive config),
      (is_error (no_delay_ec socket)), (is_error (keep_alive_ec socket)),
      (TCP_FASTOPEN_CONNECT && fast_open config);
      simpl;
      rewrite ?timer_uses_app, ?destroys_app in *;
      unfold timer_uses, destroys in *; simpl in *;
      (split; [reflexivity|]); split; lia.
  - now repeat split.
  - now repeat split.
  - unfold untimed. simpl in *. destruct c, r; simpl in *;
      (split; [reflexivity|]); split; lia.
  - destruct c as [| |ec']; try (now repeat split).
    unfold untimed, connect_handler, emit.
    destruct (is_error ec'), r; simpl in *;
      rewrite ?timer_uses_app, ?destroys_app in *;
      unfold timer_uses, destroys in *; simpl in *;
      (split; [reflexivity|]); split; lia.
Qed.

(** X17: a timeout of zero, or less, means no timer.  With
    [connect_time_out <= 0] no timer is created, armed or cancelled in any
    run, and [destroy()] is called at most once. *)
Theorem no_timeout_no_timer :
  (connect_time_out config <= 0)%Z ->
  forall es,
    let a := run es connect_out_socket in
    timeout_timer a = None
    /\ timer_uses (effects a) = 0
    /\ destroys (effects a) <= 1.
Proof.
  intros T.
  assert (G : forall es a, untimed a -> untimed (run es a)).
  { induction es as [|e es IH]; intros a U; [exact U|].
    apply IH. now apply untimed_step. }
  intros es a. subst a.
  destruct (G es connect_out_socket) as (U1 & U2 & U3).
  - unfold untimed. simpl. repeat split. lia.
  - split; [exact U1|]. split; [exact U2|]. lia.
Qed.

End Bounds.

Transparent String.append.

Lemma connected_only_after_success_witness :
  let first := {| address := "192.0.2.1"; protocol_v6 := false |} in
  let es := [Resolved success [first]; ConnectFinishes success;
             ConnectHandlerRuns] in
  In (ConnectFinishes success) es
  /\ exists f r, In (Resolved success (f :: r)) es.
Proof.
  intros first es.
  apply (connected_only_after_success (fun _ => "error"%string) false
           "example.org"%string "443"%string "client"%string
           {| no_delay := false; keep_alive := false; fast_open := false;
              connect_time_out := 0 |}
           {| open_ec := success; no_delay_ec := success;
              keep_alive_ec := success |} es).
  simpl. auto 10.
Defined.

Lemma throwing_option_abandons_witness :
  let first := {| address := "192.0.2.1"; protocol_v6 := false |} in
  let a := run (fun _ => "error"%string) false "example.org" "443" "client"
             {| no_delay := true; keep_alive := false; fast_open := false;
                connect_time_out := 5 |}
             {| open_ec := success; no_delay_ec := failure 22;
                keep_alive_ec := success |}
             [Resolved success [first]; TimerExpires; TimerHandlerRuns;
              ConnectFinishes success; ConnectHandlerRuns]
             connect_out_socket in
  destroys (effects a) = 0 /\ connects (effects a) = []
  /\ timeout_timer a = None.
Proof.
  intros first a. subst a.
  destruct (throwing_option_abandons (fun _ => "error"%string) false
              "example.org"%string "443"%string "client"%string
              {| no_delay := true; keep_alive := false; fast_open := false;
                 connect_time_out := 5 |}
              {| open_ec := success; no_delay_ec := failure 22;
                 keep_alive_ec := success |}
              first []
              [TimerExpires; TimerHandlerRuns; ConnectFinishes success;
               ConnectHandlerRuns])
    as (D & C & _ & _ & T & _); [reflexivity | reflexivity|].
  split; [exact D | split; [exact C | exact T]].
Defined.

Lemma no_timeout_no_timer_witness :
  let first := {| address := "192.0.2.1"; protocol_v6 := false |} in
  let a := run (fun _ => "error"%string) false "example.org" "443" "client"
             {| no_delay := true; keep_alive := true; fast_open := false;
                connect_time_out := 0 |}
             {| open_ec := success; no_delay_ec := success;
                keep_alive_ec := success |}
             [Resolved success [first]; TimerExpires; TimerHandlerRuns;
              ConnectFinishes (failure 111); ConnectHandlerRuns]
             connect_out_socket in
  timeout_timer a = None /\ timer_uses (effects a) = 0
  /\ destroys (effects a) <= 1.
Proof.
  intros first a. subst a.
  apply (no_timeout_no_timer (fun _ => "error"%string) false
           "example.org"%string "443"%string "client"%string
           {| no_delay := true; keep_alive := true; fast_open := false;
              connect_time_out := 0 |}
           {| open_ec := success; no_delay_ec := success;
              keep_alive_ec := success |}).
  simpl. lia.
Defined.

End ConnectorFacts.

(** ** The TLS shutdown *)

Module SslShutdownFacts.
Import SslShutdown.

Lemma session_run_cons e es s : run (e :: es) s = run es (step e s).
Proof. reflexivity. Qed.

(** On a socket that is not open the function does nothing. *)
Lemma shutdown_closed_socket : shutdown_ssl_socket (socket false) = socket false.
Proof. reflexivity. Qed.

Lemma shutdown_open_socket :
  shutdown_ssl_socket (socket true)
  = {| is_open := true; shutdown_op := Pending;
       ssl_shutdown_timer := Pending; effects := started |}.
Proof. reflexivity. Qed.

Lemma ssl_shutdown_cb_aborted s : ssl_shutdown_cb operation_aborted s = s.
Proof. reflexivity. Qed.

Lemma ssl_shutdown_cb_runs error s :
  is_aborted error = false ->
  ssl_shutdown_cb error s
  = {| is_open := false;
       shutdown_op := cancel (shutdown_op s);
       ssl_shutdown_timer := cancel (ssl_shutdown_timer s);
       effects := effects s ++ teardown |}.
Proof.
  intros E. unfold ssl_shutdown_cb, emit, teardown. rewrite E. simpl.
  now rewrite <- !app_assoc.
Qed.

Lemma session_step_settled e s :
  settled s -> settled (step e s) /\ effects (step e s) = effects s.
Proof.
  destruct s as [o p t l]. unfold settled, quiet. simpl.
  intros [[-> | ->] [-> | ->]]; destruct e; simpl; auto.
Qed.

Lemma session_run_settled es :
  forall s, settled s -> effects (run es s) = effects s.
Proof.
  induction es as [|e es IH]; intros s S; [reflexivity|].
  rewrite session_run_cons. destruct (session_step_settled e s S) as [S' <-].
  now apply IH.
Qed.

(** The close-notify exchange ends, with anything but an abort, and its
    handler runs while the timer is still waiting: one teardown, whatever
    happens later. *)
Lemma close_notify_first ec es :
  is_aborted ec = false ->
  effects (run (ShutdownFinishes ec :: ShutdownHandlerRuns :: es)
             (shutdown_ssl_socket (socket true)))
  = started ++ teardown.
Proof.
  intros E. rewrite shutdown_open_socket, !session_run_cons. simpl step.
  rewrite ssl_shutdown_cb_runs by assumption.
  rewrite session_run_settled; [reflexivity|].
  split; [left | right]; reflexivity.
Qed.

(** The timer ends and its handler runs while the close-notify exchange
    is still going on: one teardown, whatever happens later. *)
Lemma timer_first es :
  effects (run (TimerExpires :: TimerHandlerRuns :: es)
             (shutdown_ssl_socket (socket true)))
  = started ++ teardown.
Proof.
  rewrite shutdown_open_socket, !session_run_cons. simpl step.
  rewrite ssl_shutdown_cb_runs by reflexivity.
  rewrite session_run_settled; [reflexivity|].
  split; [right | left]; reflexivity.
Qed.

(** C9, on the run: the close-notify exchange ends and the 30 seconds
    pass before the event loop calls either handler.  The handler of the
    exchange runs the teardown; its [cancel()] comes too late for the
    wait, whose handler is called with success and runs the teardown
    again: [close] is called twice and neither handler sees
    [operation_aborted]. *)
Theorem both_queued_teardown_twice :
  let s := run [ShutdownFinishes success; TimerExpires;
                ShutdownHandlerRuns; TimerHandlerRuns]
             (shutdown_ssl_socket (socket true)) in
  effects s = started ++ teardown ++ teardown
  /\ closes (effects s) = 2.
Proof. split; reflexivity. Qed.

(** *** Further properties of the shutdown *)

Lemma closes_app l m : closes (l ++ m) = closes l + closes m.
Proof. unfold closes. now rewrite filter_app, length_app. Qed.

Lemma shutdown_inv_step e s : shutdown_inv s -> shutdown_inv (step e s).
Proof.
  destruct s as [o p t l]. unfold shutdown_inv.
  destruct e as [ec | | |]; unfold step, ssl_shutdown_cb, emit; simpl;
    intros (A & B & C);
    destruct p as [| |e1], t as [| |e2]; simpl in *;
    try destruct (is_aborted ec) eqn:E0;
    try destruct (is_aborted e1) eqn:E1;
    try destruct (is_aborted e2) eqn:E2;
    simpl in *; rewrite ?closes_app; unfold closes in *; simpl in *;
    rewrite ?E1, ?E2; simpl;
    (split; [lia|]); (split; [split; intros; try lia; try reflexivity; tauto|]);
    intros; try lia; try discriminate.
Qed.

(** X16: the socket is closed when the timer's handler has run, and not
    more than twice.  In every run after [shutdown_ssl_socket] on an open
    socket, [close] is called at most twice; the socket is open exactly as
    long as [close] has not been called; and once the handler of the
    30-second wait has run, the socket is closed, whatever became of the
    close-notify exchange. *)
Theorem closed_by_the_timer :
  forall es,
    let s := run es (shutdown_ssl_socket (socket true)) in
    closes (effects s) <= 2
    /\ (is_open s = false <-> 1 <= closes (effects s))
    /\ (ssl_shutdown_timer s = Idle -> is_open s = false).
Proof.
  assert (G : forall es s, shutdown_inv s -> shutdown_inv (run es s)).
  { induction es as [|e es IH]; intros s H; [exact H|].
    rewrite session_run_cons. apply IH. now apply shutdown_inv_step. }
  intros es s. subst s.
  destruct (G es (shutdown_ssl_socket (socket true))) as (A & B & C).
  - unfold shutdown_inv, closes. simpl. split; [lia|].
    split; [split; intros X; [discriminate X | lia] | intros X; discriminate X].
  - split; [lia|]. split; [exact B|].
    intros T. apply B. apply C. now rewrite T.
Qed.

Lemma closed_by_the_timer_witness :
  is_open (run [ShutdownFinishes operation_aborted; ShutdownHandlerRuns;
                TimerExpires; TimerHandlerRuns]
             (shutdown_ssl_socket (socket true))) = false.
Proof.
  apply (proj2 (proj2 (closed_by_the_timer
                         [ShutdownFinishes operation_aborted;
                          ShutdownHandlerRuns; TimerExpires;
                          TimerHandlerRuns]))).
  reflexivity.
Defined.

End SslShutdownFacts.

(** ** The TLS connector *)

Module SslConnectorFacts.
Import SslConnector.

Lemma belows_app l m : belows (l ++ m) = belows l ++ belows m.
Proof. apply flat_map_app. Qed.

Lemma handshakes_app l m : handshakes (l ++ m) = handshakes l + handshakes m.
Proof. unfold handshakes. now rewrite filter_app, length_app. Qed.

Lemma tunnel_connected_app l m :
  connected_calls (l ++ m) = connected_calls l + connected_calls m.
Proof. unfold connected_calls. now rewrite filter_app, length_app. Qed.

Lemma tunnel_destroys_app l m : destroys (l ++ m) = destroys l + destroys m.
Proof. unfold destroys. now rewrite filter_app, length_app. Qed.

Lemma without_logs_app l m :
  without_logs (l ++ m) = without_logs l ++ without_logs m.
Proof. apply filter_app. Qed.

Ltac count_tunnel :=
  simpl in *;
  rewrite ?belows_app, ?handshakes_app, ?tunnel_connected_app,
    ?tunnel_destroys_app, ?ConnectorFacts.connected_calls_app in *;
  unfold handshakes, connected_calls, destroys, Connector.connected_calls in *;
  simpl in *.

Lemma absorb_one s e :
  below (absorb s e) = below s
  /\ belows (effects (absorb s e)) = belows (effects s) ++ [e]
  /\ handshakes (effects (absorb s e))
     = handshakes (effects s) + Connector.connected_calls [e]
  /\ connected_calls (effects (absorb s e)) = connected_calls (effects s)
  /\ destroys (effects (absorb s e)) = destroys (effects s)
  /\ Connector.live (handshake (absorb s e))
     <= Connector.live (handshake s) + Connector.connected_calls [e].
Proof.
  unfold absorb, on_connected, emit.
  destruct e; count_tunnel; unfold belows; simpl; rewrite ?app_nil_r;
    repeat split; try reflexivity; lia.
Qed.

(** Taking in what [connect_out_socket] did: one handshake is started for
    each call of [connected_handler] it made. *)
Lemma absorb_all fresh :
  forall s,
    let s' := fold_left absorb fresh s in
    below s' = below s
    /\ belows (effects s') = belows (effects s) ++ fresh
    /\ handshakes (effects s')
       = handshakes (effects s) + Connector.connected_calls fresh
    /\ connected_calls (effects s') = connected_calls (effects s)
    /\ destroys (effects s') = destroys (effects s)
    /\ Connector.live (handshake s')
       <= Connector.live (handshake s) + Connector.connected_calls fresh.
Proof.
  induction fresh as [|e fresh IH]; intros s; simpl.
  - rewrite app_nil_r. unfold Connector.connected_calls. simpl.
    repeat split; try reflexivity; lia.
  - destruct (IH (absorb s e)) as (A1 & A2 & A3 & A4 & A5 & A6).
    destruct (absorb_one s e) as (B1 & B2 & B3 & B4 & B5 & B6).
    rewrite A1, A2, A3, A4, A5, B1, B2, B3, B4, B5.
    change (e :: fresh) with ([e] ++ fresh).
    rewrite ConnectorFacts.connected_calls_app, <- app_assoc.
    repeat split; try reflexivity; lia.
Qed.

Section WithArguments.

Variable message : error_code -> string.
Variable TCP_FASTOPEN_CONNECT : bool.
Variables addr port in_endpoint : string.
Variable config : Connector.TcpConfig.
Variable socket : Connector.Answers.
Variable reuse_session : bool.
Variable SSL_session_reused : bool.

Let step :=
  step message TCP_FASTOPEN_CONNECT addr port in_endpoint config socket
    reuse_session SSL_session_reused.
Let run :=
  run message TCP_FASTOPEN_CONNECT addr port in_endpoint config socket
    reuse_session SSL_session_reused.

Lemma tunnel_inv_step e s :
  tunnel_inv s /\ Connector.budget (below s) ->
  tunnel_inv (step e s) /\ Connector.budget (below (step e s)).
Proof.
  intros [(I1 & I2 & I3) B].
  destruct e as [e | ec |]; unfold step, SslConnector.step.
  - cbv zeta.
    destruct (ConnectorFacts.attempt_step_appends message TCP_FASTOPEN_CONNECT
                addr port in_endpoint config socket e (below s))
      as [fresh F].
    rewrite F, skipn_app, skipn_all, Nat.sub_diag. cbn [skipn app].
    match goal with
    | |- context [fold_left absorb fresh ?x] =>
        destruct (absorb_all fresh x) as (A1 & A2 & A3 & A4 & A5 & A6)
    end.
    simpl in A1, A2, A3, A4, A5, A6. unfold tunnel_inv.
    rewrite A1, A2, A3, A4, A5. simpl below.
    rewrite F, ConnectorFacts.connected_calls_app, I1, I2.
    split; [|now apply ConnectorFacts.budget_step].
    split; [reflexivity|]. split; [reflexivity|]. lia.
  - split; [|exact B]. split; [exact I1|]. split; [exact I2|]. simpl.
    destruct (handshake s); simpl in *; lia.
  - destruct (handshake s) as [| |ec] eqn:H;
      try (split; [split; [exact I1 | split; [exact I2 | rewrite H; exact I3]]
                  | exact B]).
    unfold handshake_handler, emit.
    destruct (is_error ec), reuse_session, SSL_session_reused;
      unfold tunnel_inv; count_tunnel; unfold belows in *; simpl;
      rewrite ?app_nil_r;
      (split; [|exact B]); (split; [assumption|]); split; lia.
Qed.

Lemma tunnel_inv_run es :
  forall s,
    tunnel_inv s /\ Connector.budget (below s) ->
    tunnel_inv (run es s) /\ Connector.budget (below (run es s)).
Proof.
  induction es as [|e es IH]; intros s H; [exact H|].
  apply IH. now apply tunnel_inv_step.
Qed.

(** X14: the handshake follows the connect.  In every run of
    [connect_remote_server_ssl], a handshake is started once for each time
    [connect_out_socket] calls its [connected_handler], hence at most
    once; and the handshake handler calls the caller's
    [connected_handler()] or [destroy()], not both, at most once. *)
Theorem handshake_follows_connect :
  forall es,
    let s := run es connect_remote_server_ssl in
    handshakes (effects s)
    = Connector.connected_calls (Connector.effects (below s))
    /\ handshakes (effects s) <= 1
    /\ connected_calls (effects s) + destroys (effects s)
       <= handshakes (effects s).
Proof.
  intros es s. subst s.
  destruct (tunnel_inv_run es connect_remote_server_ssl)
    as [(I1 & I2 & I3) (_ & _ & B & _)].
  - split; [|unfold Connector.budget; simpl; lia].
    split; [reflexivity|]. split; [reflexivity|]. simpl. lia.
  - split; [exact I2|]. split; lia.
Qed.

Lemma same_absorb fresh :
  forall s s',
    same_but_logs s s' ->
    same_but_logs (fold_left absorb fresh s) (fold_left absorb fresh s').
Proof.
  induction fresh as [|e fresh IH]; intros s s' R; [exact R|].
  simpl. apply IH.
  destruct s as [a h l], s' as [a' h' l'], R as (Ra & Rh & Rl).
  simpl in Ra, Rh, Rl. subst a' h'.
  unfold absorb, on_connected, emit.
  destruct e; simpl; (split; [reflexivity|]); (split; [reflexivity|]); simpl;
    rewrite ?without_logs_app, Rl; reflexivity.
Qed.

Lemma same_step e s s' :
  same_but_logs s s' ->
  same_but_logs (step e s)
    (SslConnector.step message TCP_FASTOPEN_CONNECT addr port in_endpoint
       config socket false false e s').
Proof.
  intros R.
  destruct s as [a h l], s' as [a' h' l'], R as (Ra & Rh & Rl).
  simpl in Ra, Rh, Rl. subst a' h'.
  destruct e as [e | ec |]; unfold step, SslConnector.step; simpl.
  - apply same_absorb. now split.
  - now split.
  - destruct h as [| |ec]; try (now split).
    unfold handshake_handler, emit.
    destruct (is_error ec), reuse_session, SSL_session_reused; simpl;
      (split; [reflexivity|]); (split; [reflexivity|]); simpl;
      rewrite ?without_logs_app, Rl; unfold without_logs; simpl;
      rewrite ?app_nil_r; reflexivity.
Qed.

(** X15: reusing the TLS session changes the log and nothing else.
    Whatever [config.ssl.reuse_session] is and whatever
    [SSL_session_reused] answers, a run does the same things in the same
    order, lines logged by the handshake handler apart, and ends in the
    same state. *)
Theorem session_reuse_only_logs :
  forall es,
    same_but_logs
      (run es connect_remote_server_ssl)
      (SslConnector.run message TCP_FASTOPEN_CONNECT addr port in_endpoint
         config socket false false es connect_remote_server_ssl).
Proof.
  assert (G : forall es s s',
             same_but_logs s s' ->
             same_but_logs (run es s)
               (SslConnector.run message TCP_FASTOPEN_CONNECT addr port
                  in_endpoint config socket false false es s')).
  { induction es as [|e es IH]; intros s s' R; [exact R|].
    apply IH. now apply same_step. }
  intros es. apply G. now split.
Qed.

End WithArguments.

End SslConnectorFacts.
